(** * NEXTHASH-256: a shallow embedding of [nexthash256.c]

    The C reference implementation is embedded function by function.
    - [uint32_t], [uint64_t], [uint8_t] and [size_t] values are integers in
      [Z]; every operation that can wrap in C carries its reduction
      ([u32], [u64], [u8]).  [size_t] is taken to be 64 bits wide.
    - arrays ([state], [W], [buffer], [digest], ...) are [list Z], read with
      [nth] and written with [upd]; a pointer into an array is the list
      that starts at the pointed element, so [data += n] is [skipn n].
    - a local array that the source leaves uninitialised starts filled
      with zeros where every cell is written before it is read ([W],
      [folded], [digest], and [pad] up to the last byte passed on); the
      local contexts of [nexthash256] and [hmac_nexthash256], whose buffer
      [nexthash256_init] does not touch, are parameters.
    - the only instrumentation is the ghost field [compress_calls] of the
      context, incremented next to every call of [compress].
    - the standard output written by [print_hex] is a list of characters;
      [main], which hashes fixed strings and prints them, is not embedded. *)

From Stdlib Require Import ZArith List Lia Bool ZifyNat Ascii.
Import ListNotations.
Open Scope Z_scope.

(* ====================================================================== *)
(** ** Machine integers and arrays *)
(* ====================================================================== *)

Definition u8 (x : Z) : Z := x mod 2 ^ 8.
Definition u32 (x : Z) : Z := x mod 2 ^ 32.
Definition u64 (x : Z) : Z := x mod 2 ^ 64.

Definition add32 (a b : Z) : Z := u32 (a + b).
Definition shl32 (x n : Z) : Z := u32 (Z.shiftl x n).
Definition shr32 (x n : Z) : Z := Z.shiftr x n.
Definition not32 (x : Z) : Z := u32 (Z.lnot x).

Infix "+%" := add32 (at level 50, left associativity).

(** [A[i] = v] on an array; writing outside the array is not modelled
    (the list is returned as it is). *)
Fixpoint upd (i : nat) (v : Z) (l : list Z) : list Z :=
  match l, i with
  | [], _ => []
  | _ :: t, O => v :: t
  | x :: t, S j => x :: upd j v t
  end.

(** Array read at an [int] index. *)
Definition at_ (A : list Z) (i : Z) : Z := nth (Z.to_nat i) A 0.

(** The values taken by [for (i = a; i < a + n; i++)]. *)
Definition zrange (a n : nat) : list Z := map Z.of_nat (seq a n).

(** [memcpy(dst + off, src, n)] seen from [dst]. *)
Definition memcpy (dst : list Z) (off : nat) (src : list Z) (n : nat) : list Z :=
  firstn off dst ++ firstn n src ++ skipn (off + n) dst.

(* ====================================================================== *)
(** ** Constants *)
(* ====================================================================== *)

(** The 52 round constants, one row for every four rounds as in the source. *)
Definition K : list Z :=
  [0x428a2f98; 0x71374491; 0xb5c0fbcf; 0xe9b5dba5] ++
  [0x3956c25b; 0x59f111f1; 0x923f82a4; 0xab1c5ed5] ++
  [0xd807aa98; 0x12835b01; 0x243185be; 0x550c7dc3] ++
  [0x72be5d74; 0x80deb1fe; 0x9bdc06a7; 0xc19bf174] ++
  [0xe49b69c1; 0xefbe4786; 0x0fc19dc6; 0x240ca1cc] ++
  [0x2de92c6f; 0x4a7484aa; 0x5cb0a9dc; 0x76f988da] ++
  [0x983e5152; 0xa831c66d; 0xb00327c8; 0xbf597fc7] ++
  [0xc6e00bf3; 0xd5a79147; 0x06ca6351; 0x14292967] ++
  [0x27b70a85; 0x2e1b2138; 0x4d2c6dfc; 0x53380d13] ++
  [0x650a7354; 0x766a0abb; 0x81c2c92e; 0x92722c85] ++
  [0xa2bfe8a1; 0xa81a664b; 0xc24b8b70; 0xc76c51a3] ++
  [0xd192e819; 0xd6990624; 0xf40e3585; 0x106aa070] ++
  [0x19a4c116; 0x1e376c08; 0x2748774c; 0x34b0bcb5].

Definition H_INIT : list Z :=
  [ 0x6a09e667; 0xbb67ae85; 0x3c6ef372; 0xa54ff53a;
    0x510e527f; 0x9b05688c; 0x1f83d9ab; 0x5be0cd19;
    0xcbbb9d5d; 0x629a292a; 0x9159015a; 0x152fecd8;
    0x67332667; 0x8eb44a87; 0xdb0c2e0d; 0x47b5481d ].

(* ====================================================================== *)
(** ** Helper functions *)
(* ====================================================================== *)

Definition rotr (x n : Z) : Z := Z.lor (shr32 x n) (shl32 x (32 - n)).
Definition rotl (x n : Z) : Z := Z.lor (shl32 x n) (shr32 x (32 - n)).

Definition widening_mul (a b : Z) : Z :=
  let product := u64 (a * b) in
  Z.lxor (u32 (Z.shiftr product 32)) (u32 product).

Definition Ch (x y z : Z) : Z := Z.lxor (Z.land x y) (Z.land (not32 x) z).
Definition Maj (x y z : Z) : Z :=
  Z.lxor (Z.lxor (Z.land x y) (Z.land x z)) (Z.land y z).

Definition Sigma0 (x : Z) : Z := Z.lxor (Z.lxor (rotr x 2) (rotr x 13)) (rotr x 22).
Definition Sigma1 (x : Z) : Z := Z.lxor (Z.lxor (rotr x 6) (rotr x 11)) (rotr x 25).
Definition sigma0 (x : Z) : Z := Z.lxor (Z.lxor (rotr x 7) (rotr x 18)) (shr32 x 3).
Definition sigma1 (x : Z) : Z := Z.lxor (Z.lxor (rotr x 17) (rotr x 19)) (shr32 x 10).

(* ====================================================================== *)
(** ** Message schedule *)
(* ====================================================================== *)

(** The index written [(i-14 < 0 ? i-14+52 : i-14)] in the source. *)
Definition guarded_index (i : Z) : Z := if i - 14 <? 0 then i - 14 + 52 else i - 14.

(** Body of the first loop: [W[i]] is the big-endian word at [block[4i..]]. *)
Definition parse_step (block W : list Z) (i : Z) : list Z :=
  upd (Z.to_nat i)
      (Z.lor (Z.lor (Z.lor (shl32 (u32 (at_ block (i * 4))) 24)
                           (shl32 (u32 (at_ block (i * 4 + 1))) 16))
                    (shl32 (u32 (at_ block (i * 4 + 2))) 8))
             (u32 (at_ block (i * 4 + 3))))
      W.

(** Value stored by the second loop at index [i]. *)
Definition schedule_word (W : list Z) (i : Z) : Z :=
  let linear := sigma1 (at_ W (i - 2)) +% at_ W (i - 7)
                +% sigma0 (at_ W (i - 15)) +% at_ W (i - 16) in
  let nl1 := widening_mul (at_ W (i - 3)) (at_ W (i - 10)) in
  let nl2 := widening_mul (at_ W (i - 5)) (at_ W (i - 12)) in
  let nl3 := widening_mul (Z.lxor (at_ W (i - 1)) (at_ W (i - 8)))
                          (Z.lxor (at_ W (i - 4)) (at_ W (guarded_index i))) in
  linear +% nl1 +% Z.lxor nl2 nl3.

Definition schedule_step (W : list Z) (i : Z) : list Z :=
  upd (Z.to_nat i) (schedule_word W i) W.

(** [expand_message(block, W)]: [W] is the caller's 52-word array, whose
    contents on entry are arbitrary; the result is the array on return. *)
Definition expand_message (block W : list Z) : list Z :=
  let W := fold_left (parse_step block) (zrange 0 16) W in
  fold_left schedule_step (zrange 16 36) W.

(* ====================================================================== *)
(** ** Round function *)
(* ====================================================================== *)

Definition nexthash_round (state : list Z) (W_i K_i : Z) : list Z :=
  let a := nth 0 state 0 in let b := nth 1 state 0 in
  let c := nth 2 state 0 in let d := nth 3 state 0 in
  let e := nth 4 state 0 in let f := nth 5 state 0 in
  let g := nth 6 state 0 in let h := nth 7 state 0 in
  let i := nth 8 state 0 in let j := nth 9 state 0 in
  let k := nth 10 state 0 in let l := nth 11 state 0 in
  let m := nth 12 state 0 in let n := nth 13 state 0 in
  let o := nth 14 state 0 in let p := nth 15 state 0 in
  let T1 := h +% Sigma1 e +% Ch e f g +% K_i +% W_i in
  let T2 := Sigma0 a +% Maj a b c in
  let M1 := widening_mul (Z.lxor a i) (Z.lxor e m) in
  let M2 := widening_mul (Z.lxor b j) (Z.lxor f n) in
  let M3 := widening_mul (Z.lxor c k) (Z.lxor g o) in
  let M4 := widening_mul (Z.lxor d l) (Z.lxor h p) in
  let M5 := widening_mul (Z.lxor a m) (Z.lxor e i) in
  let M6 := widening_mul (Z.lxor b n) (Z.lxor f j) in
  let M7 := widening_mul (Z.lxor c o) (Z.lxor g k) in
  let M8 := widening_mul (Z.lxor d p) (Z.lxor h l) in
  let M9 := widening_mul (Z.lxor a p) (Z.lxor d m) in
  let M10 := widening_mul (Z.lxor b o) (Z.lxor c n) in
  let T3 := p +% Sigma1 m +% Ch m n o +% Z.lxor K_i 0x5A5A5A5A +% W_i in
  let T4 := Sigma0 i +% Maj i j k in
  [ T1 +% T2 +% M1 +% M5 +% M9;
    a +% M6 +% M10;
    b;
    c +% M2 +% M7;
    d +% T1 +% M9;
    e +% M8;
    f;
    g +% M3 +% M10;
    T3 +% T4 +% M1 +% M5;
    i +% M6;
    j;
    k +% M4 +% M7;
    l +% T3 +% M9;
    m +% M8;
    n;
    o +% Z.lxor (Z.lxor M2 M3) M4 +% M10 ].

(* ====================================================================== *)
(** ** Permutation *)
(* ====================================================================== *)

Definition full_permutation (state : list Z) : list Z :=
  [ nth 0 state 0; nth 8 state 0;
    nth 1 state 0; nth 9 state 0;
    nth 2 state 0; nth 10 state 0;
    nth 3 state 0; nth 11 state 0;
    nth 4 state 0; nth 12 state 0;
    nth 5 state 0; nth 13 state 0;
    nth 6 state 0; nth 14 state 0;
    nth 7 state 0; nth 15 state 0 ].

(* ====================================================================== *)
(** ** Compression function *)
(* ====================================================================== *)

(** The test [(round_num + 1) % 4 == 0]. *)
Definition permutes_after (round_num : Z) : bool := (round_num + 1) mod 4 =? 0.

(** Body of the round loop. *)
Definition round_step (W working : list Z) (round_num : Z) : list Z :=
  let working := nexthash_round working (at_ W round_num) (at_ K round_num) in
  if permutes_after round_num then full_permutation working else working.

(** Body of the last loop: [state[i] += working[i]]. *)
Definition feed_step (working state : list Z) (i : Z) : list Z :=
  upd (Z.to_nat i) (at_ state i +% at_ working i) state.

(** [compress(state, block)]; the local [W] is not initialised in the
    source, [expand_message] overwrites all of it (lemma
    [expand_message_overwrites]). *)
Definition compress (state block : list Z) : list Z :=
  let W := expand_message block (repeat 0 52%nat) in
  let working := state in
  let working := fold_left (round_step W) (zrange 0 52) working in
  fold_left (feed_step working) (zrange 0 16) state.

(* ====================================================================== *)
(** ** Finalization *)
(* ====================================================================== *)

(** [memset(dst + off, c, n)] seen from [dst]. *)
Definition memset (dst : list Z) (off : nat) (c : Z) (n : nat) : list Z :=
  firstn off dst ++ repeat c n ++ skipn (off + n) dst.

(** Body of the first fold: 16 words -> 8 words. *)
Definition fold_step (state folded : list Z) (i : Z) : list Z :=
  let upper := at_ state i in
  let lower := at_ state (i + 8) in
  upd (Z.to_nat i)
      (Z.lxor upper lower
       +% widening_mul upper (rotl lower 13)
       +% widening_mul lower (rotr upper 7)
       +% widening_mul (Z.lxor upper lower) (Z.lxor (rotr upper 3) (rotl lower 11))
       +% rotr (Z.lxor upper lower) (i + 1))
      folded.

(** Body of the inner mixing loop. *)
Definition mix_step (folded new_folded : list Z) (i : Z) : list Z :=
  upd (Z.to_nat i)
      (at_ folded i
       +% widening_mul (at_ folded ((i + 1) mod 8)) (at_ folded ((i + 5) mod 8))
       +% widening_mul (at_ folded ((i + 2) mod 8)) (at_ folded ((i + 6) mod 8))
       +% rotr (at_ folded ((i + 3) mod 8)) 7
       +% rotl (at_ folded ((i + 7) mod 8)) 11)
      new_folded.

(** One of the three rounds of final mixing, ending in
    [memcpy(folded, new_folded, 32)]. *)
Definition mix_round (folded : list Z) (round : Z) : list Z :=
  fold_left (mix_step folded) (zrange 0 8) (repeat 0 8%nat).

(** Body of the output loop. *)
Definition digest_step (folded digest : list Z) (i : Z) : list Z :=
  let digest := upd (Z.to_nat (i * 4)) (u8 (shr32 (at_ folded i) 24)) digest in
  let digest := upd (Z.to_nat (i * 4 + 1)) (u8 (shr32 (at_ folded i) 16)) digest in
  let digest := upd (Z.to_nat (i * 4 + 2)) (u8 (shr32 (at_ folded i) 8)) digest in
  upd (Z.to_nat (i * 4 + 3)) (u8 (at_ folded i)) digest.

(** [finalize_hash(state, digest)]: the result is the 32-byte [digest]
    array on return, every byte of which is written by the last loop. *)
Definition finalize_hash (state : list Z) : list Z :=
  let folded := fold_left (fold_step state) (zrange 0 8) (repeat 0 8%nat) in
  let folded := fold_left mix_round (zrange 0 3) folded in
  fold_left (digest_step folded) (zrange 0 8) (repeat 0 32%nat).

(* ====================================================================== *)
(** ** Public API *)
(* ====================================================================== *)

(** The context structure of [nexthash256.h].  [compress_calls] is a ghost
    field: it is not part of the C structure and only counts the calls of
    [compress] made on this context. *)
Record nexthash256_ctx : Type := mk_ctx {
  state : list Z;          (* uint32_t state[16] *)
  bitcount : Z;            (* uint64_t bitcount *)
  buffer : list Z;         (* uint8_t buffer[64] *)
  buflen : Z;              (* size_t buflen *)
  compress_calls : nat     (* ghost *)
}.

Definition set_bitcount (ctx : nexthash256_ctx) (v : Z) : nexthash256_ctx :=
  mk_ctx (state ctx) v (buffer ctx) (buflen ctx) (compress_calls ctx).
Definition set_buffer (ctx : nexthash256_ctx) (v : list Z) : nexthash256_ctx :=
  mk_ctx (state ctx) (bitcount ctx) v (buflen ctx) (compress_calls ctx).
Definition set_buflen (ctx : nexthash256_ctx) (v : Z) : nexthash256_ctx :=
  mk_ctx (state ctx) (bitcount ctx) (buffer ctx) v (compress_calls ctx).

(** [compress(ctx->state, block)], counted. *)
Definition call_compress (ctx : nexthash256_ctx) (block : list Z) : nexthash256_ctx :=
  mk_ctx (compress (state ctx) block) (bitcount ctx) (buffer ctx) (buflen ctx)
         (S (compress_calls ctx)).

(** [nexthash256_init]: the buffer keeps whatever it held. *)
Definition nexthash256_init (ctx : nexthash256_ctx) : nexthash256_ctx :=
  mk_ctx H_INIT 0 (buffer ctx) 0 (compress_calls ctx).

(** The loop [while (len >= 64)]; it makes [len / 64] iterations, which is
    the fuel [update_tail] gives it. *)
Fixpoint blocks_loop (fuel : nat) (ctx : nexthash256_ctx) (data : list Z) (len : Z)
  : nexthash256_ctx * list Z * Z :=
  match fuel with
  | O => (ctx, data, len)
  | S fuel' =>
      if 64 <=? len
      then blocks_loop fuel' (call_compress ctx data) (skipn 64 data) (len - 64)
      else (ctx, data, len)
  end.

(** [nexthash256_update] from "Process complete blocks" to the end. *)
Definition update_tail (ctx : nexthash256_ctx) (data : list Z) (len : Z)
  : nexthash256_ctx :=
  let '(ctx, data, len) := blocks_loop (Z.to_nat (len / 64)) ctx data len in
  if 0 <? len
  then set_buflen (set_buffer ctx (memcpy (buffer ctx) 0 data (Z.to_nat len))) len
  else ctx.

(** [nexthash256_update(ctx, data, len)]: [data] is the memory at the
    pointer, of which the call may read the first [len] bytes. *)
Definition nexthash256_update (ctx : nexthash256_ctx) (data : list Z) (len : Z)
  : nexthash256_ctx :=
  let ctx := set_bitcount ctx (u64 (bitcount ctx + u64 (len * 8))) in
  if 0 <? buflen ctx then
    let need := u64 (64 - buflen ctx) in
    if len <? need then
      let ctx := set_buffer ctx (memcpy (buffer ctx) (Z.to_nat (buflen ctx))
                                        data (Z.to_nat len)) in
      set_buflen ctx (u64 (buflen ctx + len))
    else
      let ctx := set_buffer ctx (memcpy (buffer ctx) (Z.to_nat (buflen ctx))
                                        data (Z.to_nat need)) in
      let ctx := call_compress ctx (buffer ctx) in
      update_tail (set_buflen ctx 0) (skipn (Z.to_nat need) data) (len - need)
  else update_tail ctx data len.

Definition final_padlen (ctx : nexthash256_ctx) : Z :=
  if buflen ctx <? 56 then u64 (56 - buflen ctx) else u64 (120 - buflen ctx).

(** The array [pad] when [nexthash256_final] passes it to
    [nexthash256_update]; the argument [pad] is the 128-byte local as it
    is found on entry. *)
Definition final_pad (pad : list Z) (ctx : nexthash256_ctx) : list Z :=
  let padlen := final_padlen ctx in
  let pad := upd 0 0x80 pad in
  let pad := memset pad 1 0 (Z.to_nat (u64 (padlen - 1))) in
  let pad := upd (Z.to_nat padlen) (u8 (Z.shiftr (bitcount ctx) 56)) pad in
  let pad := upd (Z.to_nat (padlen + 1)) (u8 (Z.shiftr (bitcount ctx) 48)) pad in
  let pad := upd (Z.to_nat (padlen + 2)) (u8 (Z.shiftr (bitcount ctx) 40)) pad in
  let pad := upd (Z.to_nat (padlen + 3)) (u8 (Z.shiftr (bitcount ctx) 32)) pad in
  let pad := upd (Z.to_nat (padlen + 4)) (u8 (Z.shiftr (bitcount ctx) 24)) pad in
  let pad := upd (Z.to_nat (padlen + 5)) (u8 (Z.shiftr (bitcount ctx) 16)) pad in
  let pad := upd (Z.to_nat (padlen + 6)) (u8 (Z.shiftr (bitcount ctx) 8)) pad in
  upd (Z.to_nat (padlen + 7)) (u8 (bitcount ctx)) pad.

(** The context after the call [nexthash256_update(ctx, pad, padlen + 8)]
    of [nexthash256_final]. *)
Definition final_absorb (ctx : nexthash256_ctx) : nexthash256_ctx :=
  nexthash256_update ctx (final_pad (repeat 0 128%nat) ctx) (u64 (final_padlen ctx + 8)).

(** [nexthash256_final(ctx, digest)]: the context and the digest array on
    return. *)
Definition nexthash256_final (ctx : nexthash256_ctx) : nexthash256_ctx * list Z :=
  let ctx := final_absorb ctx in
  let digest := finalize_hash (state ctx) in
  (mk_ctx (repeat 0 16%nat) 0 (repeat 0 64%nat) 0 (compress_calls ctx), digest).

(** [nexthash256(data, len, digest)]; [ctx] stands for the local context,
    which the source does not initialise before [nexthash256_init]. *)
Definition nexthash256 (ctx : nexthash256_ctx) (data : list Z) (len : Z) : list Z :=
  let ctx := nexthash256_init ctx in
  let ctx := nexthash256_update ctx data len in
  snd (nexthash256_final ctx).

(* ====================================================================== *)
(** ** HMAC-NEXTHASH-256 *)
(* ====================================================================== *)

(** Body of the key loop. *)
Definition key_step (key : list Z) (pads : list Z * list Z) (i : Z)
  : list Z * list Z :=
  let '(k_ipad, k_opad) := pads in
  (upd (Z.to_nat i) (u8 (Z.lxor (at_ k_ipad i) (at_ key i))) k_ipad,
   upd (Z.to_nat i) (u8 (Z.lxor (at_ k_opad i) (at_ key i))) k_opad).

(** [hmac_nexthash256(key, keylen, data, datalen, digest)]; [ctx] and
    [ctx_key] stand for the uninitialised local contexts of this function
    and of its call of [nexthash256]. *)
Definition hmac_nexthash256 (ctx ctx_key : nexthash256_ctx)
    (key : list Z) (keylen : Z) (data : list Z) (datalen : Z) : list Z :=
  let '(key, keylen) :=
    if 64 <? keylen then (nexthash256 ctx_key key keylen, 32) else (key, keylen) in
  let k_ipad := memset (repeat 0 64%nat) 0 0x36 64 in
  let k_opad := memset (repeat 0 64%nat) 0 0x5C 64 in
  let '(k_ipad, k_opad) :=
    fold_left (key_step key) (zrange 0 (Z.to_nat keylen)) (k_ipad, k_opad) in
  let ctx := nexthash256_init ctx in
  let ctx := nexthash256_update ctx k_ipad 64 in
  let ctx := nexthash256_update ctx data datalen in
  let '(ctx, digest) := nexthash256_final ctx in
  let ctx := nexthash256_init ctx in
  let ctx := nexthash256_update ctx k_opad 64 in
  let ctx := nexthash256_update ctx digest 32 in
  snd (nexthash256_final ctx).

(* ====================================================================== *)
(** ** Test harness *)
(* ====================================================================== *)

(** The digit that the conversion [%x] prints for a value below 16. *)
Definition hex_digit (d : Z) : ascii :=
  nth (Z.to_nat d)
      ["0"; "1"; "2"; "3"; "4"; "5"; "6"; "7"; "8"; "9"; "a"; "b"; "c"; "d"; "e"; "f"]%char
      "0"%char.

(** [printf("%02x", b)] for a byte [b]: two lowercase digits appended to
    the standard output [out]. *)
Definition printf_02x (out : list ascii) (b : Z) : list ascii :=
  out ++ [hex_digit (b / 16); hex_digit (b mod 16)].

(** [print_hex(data, len)]: the standard output after the call. *)
Definition print_hex (out : list ascii) (data : list Z) (len : Z) : list ascii :=
  let out := fold_left (fun out i => printf_02x out (at_ data i))
                       (zrange 0 (Z.to_nat len)) out in
  out ++ ["010"%char].

(** A context whose bytes are all zero, used for concrete runs. *)
Definition zero_ctx : nexthash256_ctx :=
  mk_ctx (repeat 0 16%nat) 0 (repeat 0 64%nat) 0 0.

(* ====================================================================== *)
(** * Specification-level definitions *)
(* ====================================================================== *)

(** These definitions are not translations of source functions: they say,
    in the words of the specification, what the source functions above are
    compared with. *)

(** The schedule recurrence as the specification writes it: one sum
    reduced modulo [2^32], and the index [i - 14] without a guard. *)
Definition spec_schedule_word (W : list Z) (i : Z) : Z :=
  u32 (sigma1 (at_ W (i - 2)) + at_ W (i - 7) + sigma0 (at_ W (i - 15)) + at_ W (i - 16)
       + widening_mul (at_ W (i - 3)) (at_ W (i - 10))
       + Z.lxor (widening_mul (at_ W (i - 5)) (at_ W (i - 12)))
                (widening_mul (Z.lxor (at_ W (i - 1)) (at_ W (i - 8)))
                              (Z.lxor (at_ W (i - 4)) (at_ W (i - 14))))).

(** The working state after [r] rounds, as the specification describes
    it: start from [H]; round [r] applies [nexthash_round] with [W[r]] and
    [K[r]], followed by the permutation when [(r + 1) mod 4 = 0]. *)
Fixpoint spec_working (r : nat) (H W : list Z) : list Z :=
  match r with
  | O => H
  | S r' =>
      let S' := nexthash_round (spec_working r' H W)
                               (at_ W (Z.of_nat r')) (at_ K (Z.of_nat r')) in
      if (Z.of_nat r' + 1) mod 4 =? 0 then full_permutation S' else S'
  end.

(** Two arrays of the same size that hold the same words below index [k]. *)
Definition agree_below (k : Z) (W W' : list Z) : Prop :=
  length W = length W' /\ forall j, 0 <= j < k -> at_ W j = at_ W' j.

(** [compress] applied to the [n] consecutive blocks that start at [l]. *)
Fixpoint compress_blocks (n : nat) (st l : list Z) : list Z :=
  match n with
  | O => st
  | S n' => compress_blocks n' (compress st l) (skipn 64 l)
  end.

(** The 64-bit big-endian encoding of [x], and the value that a byte
    sequence denotes when read big-endian. *)
Definition be64 (x : Z) : list Z :=
  [ u8 (Z.shiftr x 56); u8 (Z.shiftr x 48); u8 (Z.shiftr x 40); u8 (Z.shiftr x 32);
    u8 (Z.shiftr x 24); u8 (Z.shiftr x 16); u8 (Z.shiftr x 8); u8 x ].

Definition be_value (bytes : list Z) : Z :=
  fold_left (fun acc b => acc * 256 + b) bytes 0.

(** Padding of a message of [L] bytes: [0x80], zero bytes up to 56 modulo
    64, then the bit length on 64 bits. *)
Definition spec_padlen (L : Z) : Z :=
  if L mod 64 <? 56 then 56 - L mod 64 else 120 - L mod 64.

Definition spec_pad (L : Z) : list Z :=
  0x80 :: repeat 0 (Z.to_nat (spec_padlen L - 1)) ++ be64 (u64 (8 * L)).

(** The digest of a byte sequence: [compress] folded over the blocks of
    the padded message from [H_INIT], then [finalize_hash]. *)
Definition nexthash256_spec (M : list Z) : list Z :=
  let P := M ++ spec_pad (Z.of_nat (length M)) in
  finalize_hash (compress_blocks (length P / 64) H_INIT P).

(** [init] was followed by updates whose bytes, in order, are [M]; [c0] is
    the number of [compress] calls counted before [init]. *)
Record absorbed (c0 : nat) (M : list Z) (ctx : nexthash256_ctx) : Prop := {
  abs_state : state ctx = compress_blocks (length M / 64) H_INIT M;
  abs_bitcount : bitcount ctx = u64 (8 * Z.of_nat (length M));
  abs_buflen : buflen ctx = Z.of_nat (length M mod 64);
  abs_buffer : firstn (length M mod 64) (buffer ctx) = skipn (64 * (length M / 64)) M;
  abs_calls : compress_calls ctx = (c0 + length M / 64)%nat
}.

(** One [nexthash256_update] call per part, in order, each part passed
    with its own length. *)
Definition absorb_all (ctx : nexthash256_ctx) (parts : list (list Z)) : nexthash256_ctx :=
  fold_left (fun c p => nexthash256_update c p (Z.of_nat (length p))) parts ctx.

(** The contexts that [nexthash256_init] and calls of [nexthash256_update]
    (any pointer, any length) produce. *)
Inductive reachable : nexthash256_ctx -> Prop :=
| reach_init (ctx : nexthash256_ctx) : reachable (nexthash256_init ctx)
| reach_update (ctx : nexthash256_ctx) (data : list Z) (len : Z) :
    reachable ctx -> 0 <= len -> reachable (nexthash256_update ctx data len).

(** The MAC of the specification: the digest of the outer pad followed by
    the digest of the inner pad followed by the message. *)
Definition spec_hmac (key : list Z) (keylen : Z) (data : list Z) : list Z :=
  let '(k_ipad, k_opad) :=
    fold_left (key_step key) (zrange 0 (Z.to_nat keylen))
              (repeat 0x36 64%nat, repeat 0x5C 64%nat) in
  nexthash256_spec (k_opad ++ nexthash256_spec (k_ipad ++ data)).

(** Values of the types [uint32_t] and [uint8_t]. *)
Definition word32 (x : Z) : Prop := 0 <= x < 2 ^ 32.
Definition byte8 (x : Z) : Prop := 0 <= x < 2 ^ 8.

(** A context whose fields hold values of their C types, with [buflen]
    below 64. *)
Definition wf_ctx (ctx : nexthash256_ctx) : Prop :=
  length (state ctx) = 16%nat /\ Forall word32 (state ctx)
  /\ 0 <= bitcount ctx < 2 ^ 64
  /\ 0 <= buflen ctx < 64
  /\ length (buffer ctx) = 64%nat /\ Forall byte8 (buffer ctx).

(** The 64-byte block that HMAC derives from a key of at most 64 bytes:
    the key, padded with zero bytes, XORed with the byte [c]. *)
Definition hmac_block (c : Z) (key : list Z) : list Z :=
  map (Z.lxor c) (key ++ repeat 0 (64 - length key)).



(* ====================================================================== *)
(** * Properties *)
(* ====================================================================== *)

(** ** Arrays *)

Lemma upd_length (i : nat) (v : Z) (l : list Z) : length (upd i v l) = length l.
Proof.
  revert i; induction l as [|x t IH]; intros [|j]; simpl; auto.
Qed.

Lemma nth_upd_same (i : nat) (v : Z) (l : list Z) :
  (i < length l)%nat -> nth i (upd i v l) 0 = v.
Proof.
  revert i; induction l as [|x t IH]; intros [|j] Hi; simpl in *; try lia; auto.
  apply IH; lia.
Qed.

Lemma nth_upd_other (i j : nat) (v : Z) (l : list Z) :
  i <> j -> nth j (upd i v l) 0 = nth j l 0.
Proof.
  revert i j; induction l as [|x t IH]; intros [|i] [|j] Hij; simpl; auto.
  congruence.
Qed.

Lemma upd_app_r (l1 l2 : list Z) (k : nat) (v : Z) :
  upd (length l1 + k) v (l1 ++ l2) = l1 ++ upd k v l2.
Proof.
  induction l1 as [|x t IH]; simpl; [reflexivity | now rewrite IH].
Qed.

Lemma fold_left_ext_in {A B : Type} (f g : A -> B -> A) (l : list B) :
  (forall a x, In x l -> f a x = g a x) ->
  forall a, fold_left f l a = fold_left g l a.
Proof.
  induction l as [|x t IH]; intros Hfg a; simpl; [reflexivity|].
  rewrite Hfg by now left.
  apply IH; intros; apply Hfg; now right.
Qed.

Lemma zrange_S (a n : nat) : zrange a (S n) = zrange a n ++ [Z.of_nat (a + n)].
Proof.
  unfold zrange; rewrite seq_S, map_app; reflexivity.
Qed.

Lemma in_zrange (a n : nat) (i : Z) :
  In i (zrange a n) <-> Z.of_nat a <= i < Z.of_nat a + Z.of_nat n.
Proof.
  unfold zrange; rewrite in_map_iff; split.
  - intros (k & <- & Hk); apply in_seq in Hk; lia.
  - intros Hi; exists (Z.to_nat i); split; [lia | apply in_seq; lia].
Qed.

(** ** Modular sums *)

(** Goals about [size_t] and [uint64_t] values that do not wrap. *)
Ltac wrap64 :=
  unfold u64 in *; change (2 ^ 64) with 18446744073709551616 in *; lia.

Lemma add32_u32_l (a b : Z) : u32 a +% b = a +% b.
Proof. unfold add32, u32; apply Zplus_mod_idemp_l. Qed.

Lemma add32_u32_r (a b : Z) : a +% u32 b = a +% b.
Proof. unfold add32, u32; apply Zplus_mod_idemp_r. Qed.

Lemma add32_assoc_sum (a b c : Z) : a +% b +% c = u32 (a + b + c).
Proof. change (a +% b +% c) with (u32 (a + b) +% c); apply add32_u32_l. Qed.

(** ** Message schedule *)

Lemma guarded_index_dead (i : Z) : 14 <= i -> guarded_index i = i - 14.
Proof.
  intros Hi; unfold guarded_index.
  destruct (Z.ltb_spec (i - 14) 0); [lia | reflexivity].
Qed.

Lemma schedule_word_sum (W : list Z) (i : Z) :
  14 <= i -> schedule_word W i = spec_schedule_word W i.
Proof.
  intros Hi; unfold schedule_word, spec_schedule_word.
  rewrite (guarded_index_dead i Hi).
  cbv zeta; unfold add32, u32.
  change (2 ^ 32) with 4294967296; lia.
Qed.

Lemma spec_schedule_word_ext (W W' : list Z) (i : Z) :
  16 <= i ->
  (forall j, 0 <= j < i -> at_ W j = at_ W' j) ->
  spec_schedule_word W i = spec_schedule_word W' i.
Proof.
  intros Hi Hagree; unfold spec_schedule_word.
  rewrite !(Hagree (i - _)) by lia; reflexivity.
Qed.

Lemma schedule_step_length (W : list Z) (i : Z) :
  length (schedule_step W i) = length W.
Proof. apply upd_length. Qed.

Lemma parse_step_length (block W : list Z) (i : Z) :
  length (parse_step block W i) = length W.
Proof. apply upd_length. Qed.

Lemma fold_left_length_inv (f : list Z -> Z -> list Z) (l : list Z) :
  (forall W i, length (f W i) = length W) ->
  forall W, length (fold_left f l W) = length W.
Proof.
  intros Hf; induction l as [|x t IH]; intros W; simpl; [reflexivity|].
  now rewrite IH, Hf.
Qed.

Lemma at_schedule_step_other (W : list Z) (i j : Z) :
  0 <= i -> 0 <= j -> i <> j -> at_ (schedule_step W i) j = at_ W j.
Proof.
  intros Hi Hj Hij; unfold at_, schedule_step.
  apply nth_upd_other; lia.
Qed.

Lemma schedule_fold_below (n a : nat) (W : list Z) (j : Z) :
  0 <= j < Z.of_nat a ->
  at_ (fold_left schedule_step (zrange a n) W) j = at_ W j.
Proof.
  intros Hj; induction n as [|n IH]; [reflexivity|].
  rewrite zrange_S, fold_left_app; simpl.
  rewrite at_schedule_step_other by lia; exact IH.
Qed.

Lemma schedule_fold_spec (n a : nat) (W : list Z) (i : Z) :
  (16 <= a)%nat -> (a + n <= length W)%nat ->
  Z.of_nat a <= i < Z.of_nat (a + n) ->
  let F := fold_left schedule_step (zrange a n) W in
  at_ F i = spec_schedule_word F i.
Proof.
  intros Ha; revert i; induction n as [|n IH]; intros i Hlen Hi; [lia|].
  cbv zeta; rewrite zrange_S, fold_left_app; simpl.
  set (F' := fold_left schedule_step (zrange a n) W) in *.
  assert (HlenF : length F' = length W)
    by (apply fold_left_length_inv; intros; apply upd_length).
  assert (Hsame : forall j, 0 <= j < Z.of_nat (a + n) ->
                       at_ (schedule_step F' (Z.of_nat (a + n))) j = at_ F' j)
    by (intros; apply at_schedule_step_other; lia).
  destruct (Z.eq_dec i (Z.of_nat (a + n))) as [-> | Hne].
  - transitivity (schedule_word F' (Z.of_nat (a + n))).
    + unfold at_, schedule_step; apply nth_upd_same; lia.
    + rewrite schedule_word_sum by lia.
      apply spec_schedule_word_ext; [lia|].
      intros j Hj; symmetry; apply Hsame; lia.
  - rewrite Hsame by lia.
    rewrite (IH i) by lia.
    apply spec_schedule_word_ext; [lia|].
    intros j Hj; symmetry; apply Hsame; lia.
Qed.

(** C3: in [expand_message], every word [W[i]] with [16 <= i < 52] is the
    sum, modulo [2^32], of [sigma1(W[i-2])], [W[i-7]], [sigma0(W[i-15])],
    [W[i-16]], [wmul(W[i-3], W[i-10])] and
    [wmul(W[i-5], W[i-12]) XOR wmul(W[i-1] XOR W[i-8], W[i-4] XOR W[i-14])];
    the guarded index of the source is [i - 14], its negative branch is
    never taken. *)
Theorem expand_message_schedule (block W0 : list Z) (i : Z) :
  length W0 = 52%nat ->
  16 <= i < 52 ->
  guarded_index i = i - 14
  /\ at_ (expand_message block W0) i
     = spec_schedule_word (expand_message block W0) i.
Proof.
  intros HW Hi; split; [apply guarded_index_dead; lia|].
  unfold expand_message.
  apply schedule_fold_spec; [lia | | lia].
  rewrite fold_left_length_inv by (intros; apply upd_length).
  rewrite HW; simpl; lia.
Qed.

Lemma expand_message_schedule_witness :
  length (repeat 0 52%nat) = 52%nat /\ 16 <= 16 < 52
  /\ guarded_index 16 = 16 - 14
  /\ at_ (expand_message (repeat 7 64%nat) (repeat 0 52%nat)) 16
     = spec_schedule_word (expand_message (repeat 7 64%nat) (repeat 0 52%nat)) 16.
Proof.
  split; [reflexivity|]; split; [lia|].
  apply (expand_message_schedule (repeat 7 64%nat) (repeat 0 52%nat) 16);
    [reflexivity | lia].
Defined.

Lemma parse_fold_agree (block : list Z) (n : nat) (W W' : list Z) :
  length W = length W' -> (n <= length W)%nat ->
  agree_below (Z.of_nat n) (fold_left (parse_step block) (zrange 0 n) W)
                           (fold_left (parse_step block) (zrange 0 n) W').
Proof.
  intros Hlen; induction n as [|n IH]; intros Hn.
  - split; [exact Hlen | intros; lia].
  - destruct IH as [Hl Hag]; [lia|].
    rewrite !zrange_S, !fold_left_app; simpl.
    set (F := fold_left (parse_step block) (zrange 0 n) W) in *.
    set (F' := fold_left (parse_step block) (zrange 0 n) W') in *.
    assert (HF : length F = length W)
      by (apply fold_left_length_inv; intros; apply upd_length).
    split; [now rewrite !parse_step_length|].
    intros j Hj; unfold at_, parse_step.
    destruct (Nat.eq_dec (Z.to_nat (Z.of_nat n)) (Z.to_nat j)) as [E | E].
    + rewrite <- E, !nth_upd_same by lia; reflexivity.
    + rewrite !nth_upd_other by exact E. apply Hag; lia.
Qed.

Lemma schedule_fold_agree (n a : nat) (W W' : list Z) :
  (16 <= a)%nat -> (a + n <= length W)%nat ->
  agree_below (Z.of_nat a) W W' ->
  agree_below (Z.of_nat (a + n)) (fold_left schedule_step (zrange a n) W)
                                 (fold_left schedule_step (zrange a n) W').
Proof.
  intros Ha; induction n as [|n IH]; intros Hn Hag0.
  - now rewrite Nat.add_0_r.
  - destruct IH as [Hl Hag]; [lia | exact Hag0 |].
    rewrite !zrange_S, !fold_left_app; simpl.
    set (F := fold_left schedule_step (zrange a n) W) in *.
    set (F' := fold_left schedule_step (zrange a n) W') in *.
    assert (HF : length F = length W)
      by (apply fold_left_length_inv; intros; apply upd_length).
    split; [now rewrite !schedule_step_length|].
    intros j Hj; unfold at_, schedule_step.
    destruct (Nat.eq_dec (Z.to_nat (Z.of_nat (a + n))) (Z.to_nat j)) as [E | E].
    + rewrite <- E, !nth_upd_same by lia.
      rewrite !schedule_word_sum by lia.
      apply spec_schedule_word_ext; [lia | intros; apply Hag; lia].
    + rewrite !nth_upd_other by exact E. apply Hag; lia.
Qed.

Lemma agree_below_all (n : nat) (W W' : list Z) :
  length W = n -> agree_below (Z.of_nat n) W W' -> W = W'.
Proof.
  intros Hn [Hl Hag].
  apply (nth_ext _ _ 0 0 Hl); intros k Hk.
  specialize (Hag (Z.of_nat k)); unfold at_ in Hag.
  rewrite Nat2Z.id in Hag; apply Hag; lia.
Qed.

(** Every cell of the array given to [expand_message] is overwritten:
    the result does not depend on what the array held. *)
Lemma expand_message_overwrites (block W W' : list Z) :
  length W = 52%nat -> length W' = 52%nat ->
  expand_message block W = expand_message block W'.
Proof.
  intros HW HW'; unfold expand_message.
  apply (agree_below_all (16 + 36)).
  - rewrite !fold_left_length_inv by (intros; apply upd_length). exact HW.
  - apply schedule_fold_agree.
    + lia.
    + rewrite fold_left_length_inv by (intros; apply upd_length). lia.
    + apply (parse_fold_agree block 16); lia.
Qed.

(** ** Permutation *)

Ltac list16 s H :=
  do 16 (destruct s as [|? s]; [discriminate H|]);
  destruct s; [clear H | discriminate H].

(** C10: [full_permutation] interleaves the two halves of the state
    ([new[2j] = old[j]], [new[2j+1] = old[8+j]]); four applications give
    the state back, and the 13 applications made during the 52 rounds of
    one compression compose to a single one. *)
Theorem full_permutation_order_4 (s : list Z) :
  length s = 16%nat ->
  (forall j, 0 <= j < 8 ->
     at_ (full_permutation s) (2 * j) = at_ s j
     /\ at_ (full_permutation s) (2 * j + 1) = at_ s (8 + j))
  /\ Nat.iter 4 full_permutation s = s
  /\ length (filter permutes_after (zrange 0 52)) = 13%nat
  /\ Nat.iter 13 full_permutation s = full_permutation s.
Proof.
  intros Hs; list16 s Hs.
  split; [|repeat split; reflexivity].
  intros j Hj.
  assert (Hc : j = 0 \/ j = 1 \/ j = 2 \/ j = 3 \/ j = 4 \/ j = 5 \/ j = 6 \/ j = 7)
    by lia.
  repeat (destruct Hc as [-> | Hc]; [split; reflexivity|]).
  subst j; split; reflexivity.
Qed.

Lemma full_permutation_order_4_witness :
  Nat.iter 4 full_permutation H_INIT = H_INIT.
Proof.
  apply (full_permutation_order_4 H_INIT); reflexivity.
Defined.

(** ** Compression function *)

Lemma round_loop_spec (r : nat) (H W : list Z) :
  fold_left (round_step W) (zrange 0 r) H = spec_working r H W.
Proof.
  induction r as [|r IH]; [reflexivity|].
  rewrite zrange_S, fold_left_app, IH; reflexivity.
Qed.

Lemma spec_working_S (r : nat) (H W : list Z) :
  spec_working (S r) H W = round_step W (spec_working r H W) (Z.of_nat r).
Proof. reflexivity. Qed.

Lemma nexthash_round_length (s : list Z) (w k : Z) :
  length (nexthash_round s w k) = 16%nat.
Proof. reflexivity. Qed.

Lemma full_permutation_length (s : list Z) : length (full_permutation s) = 16%nat.
Proof. reflexivity. Qed.

Lemma spec_working_length (r : nat) (H W : list Z) :
  length H = 16%nat -> length (spec_working r H W) = 16%nat.
Proof.
  intros HH; destruct r as [|r]; [exact HH|]; simpl.
  destruct (_ =? _); reflexivity.
Qed.

(** The feed-forward loop after [n] iterations: the first [n] words are
    sums, the others are still those of [state]. *)
Lemma feed_loop_spec (working : list Z) (n : nat) (state : list Z) :
  (n <= length state)%nat ->
  let F := fold_left (feed_step working) (zrange 0 n) state in
  length F = length state
  /\ forall i, 0 <= i ->
       at_ F i = if i <? Z.of_nat n then u32 (at_ state i + at_ working i)
                 else at_ state i.
Proof.
  induction n as [|n IH]; intros Hn; cbv zeta.
  - split; [reflexivity|]; intros i Hi.
    destruct (Z.ltb_spec i (Z.of_nat 0)); [lia | reflexivity].
  - destruct IH as [Hl Hat]; [lia|].
    rewrite zrange_S, fold_left_app; cbn [fold_left Nat.add].
    set (F := fold_left (feed_step working) (zrange 0 n) state) in *.
    split; [unfold feed_step; now rewrite upd_length|].
    intros i Hi; unfold feed_step.
    destruct (Z.eq_dec i (Z.of_nat n)) as [-> | Hne].
    + unfold at_ at 1; rewrite nth_upd_same by lia.
      rewrite Hat by lia.
      destruct (Z.ltb_spec (Z.of_nat n) (Z.of_nat n)); [lia|].
      destruct (Z.ltb_spec (Z.of_nat n) (Z.of_nat (S n))); [reflexivity | lia].
    + unfold at_ at 1; rewrite nth_upd_other by lia.
      fold (at_ F i); rewrite Hat by lia.
      destruct (Z.ltb_spec i (Z.of_nat n)), (Z.ltb_spec i (Z.of_nat (S n)));
        try lia; reflexivity.
Qed.

Lemma compress_unfold (state block : list Z) :
  compress state block
  = fold_left (feed_step (spec_working 52 state (expand_message block (repeat 0 52%nat))))
              (zrange 0 16) state.
Proof.
  unfold compress; rewrite round_loop_spec; reflexivity.
Qed.

(** C2: [compress] leaves in [H[i]], for each of the 16 words, the sum
    modulo [2^32] of the old [H[i]] and of [S[i]], where [S] is the working
    state obtained from a copy of [H] by the 52 rounds over the expanded
    block, each round followed by the interleave permutation when
    [(r + 1) mod 4 = 0], the last round ([r = 51]) included. *)
Theorem compress_rounds_feed_forward (H B W0 : list Z) :
  length H = 16%nat ->
  length W0 = 52%nat ->
  let W := expand_message B W0 in
  let S52 := spec_working 52 H W in
  spec_working 0 H W = H
  /\ (forall r, (r < 52)%nat ->
        spec_working (S r) H W
        = let S' := nexthash_round (spec_working r H W)
                                   (at_ W (Z.of_nat r)) (at_ K (Z.of_nat r)) in
          if (Z.of_nat r + 1) mod 4 =? 0 then full_permutation S' else S')
  /\ S52 = full_permutation (nexthash_round (spec_working 51 H W) (at_ W 51) (at_ K 51))
  /\ length (compress H B) = 16%nat
  /\ forall i, 0 <= i < 16 -> at_ (compress H B) i = u32 (at_ H i + at_ S52 i).
Proof.
  intros HH HW0 W S52.
  split; [reflexivity|]. split; [intros; reflexivity|]. split.
  - assert (E : ((Z.of_nat 51 + 1) mod 4 =? 0) = true) by reflexivity.
    assert (E51 : Z.of_nat 51 = 51) by reflexivity.
    unfold S52; rewrite (spec_working_S 51 H W); unfold round_step, permutes_after.
    rewrite E, E51; reflexivity.
  - rewrite compress_unfold.
    rewrite (expand_message_overwrites B (repeat 0 52%nat) W0)
      by (try apply repeat_length; assumption).
    fold W; fold S52.
    destruct (feed_loop_spec S52 16 H) as [Hl Hat]; [lia|].
    split; [now rewrite Hl|].
    intros i Hi; rewrite Hat by lia.
    destruct (Z.ltb_spec i (Z.of_nat 16)); [reflexivity | lia].
Qed.

Lemma compress_rounds_feed_forward_witness :
  at_ (compress H_INIT (repeat 0 64%nat)) 3
  = u32 (at_ H_INIT 3
         + at_ (spec_working 52 H_INIT
                  (expand_message (repeat 0 64%nat) (repeat 0 52%nat))) 3).
Proof.
  pose proof (compress_rounds_feed_forward H_INIT (repeat 0 64%nat) (repeat 0 52%nat)
                eq_refl eq_refl) as P.
  cbv zeta in P; destruct P as (_ & _ & _ & _ & P).
  apply P; lia.
Defined.

(** ** The absorber as a fold of [compress] over 64-byte blocks *)

Lemma firstn_app_exact (n : nat) (l1 l2 : list Z) :
  length l1 = n -> firstn n (l1 ++ l2) = l1.
Proof.
  intros <-; rewrite firstn_app, Nat.sub_diag, firstn_all; apply app_nil_r.
Qed.

Lemma skipn_app_exact (n : nat) (l1 l2 : list Z) :
  length l1 = n -> skipn n (l1 ++ l2) = l2.
Proof.
  intros <-; rewrite skipn_app, Nat.sub_diag, skipn_all; reflexivity.
Qed.

Lemma firstn_app_le (n : nat) (l1 l2 : list Z) :
  (n <= length l1)%nat -> firstn n (l1 ++ l2) = firstn n l1.
Proof.
  intros Hn; rewrite firstn_app.
  replace (n - length l1)%nat with 0%nat by lia; apply app_nil_r.
Qed.

Lemma skipn_app_le (n : nat) (l1 l2 : list Z) :
  (n <= length l1)%nat -> skipn n (l1 ++ l2) = skipn n l1 ++ l2.
Proof.
  intros Hn; rewrite skipn_app.
  replace (n - length l1)%nat with 0%nat by lia; reflexivity.
Qed.

Lemma firstn_split (a n : nat) (l : list Z) :
  (a <= n)%nat -> firstn n l = firstn a l ++ firstn (n - a) (skipn a l).
Proof.
  intros Han.
  rewrite <- (firstn_skipn a (firstn n l)) at 1.
  rewrite firstn_firstn, skipn_firstn_comm.
  replace (Nat.min a n) with a by lia; reflexivity.
Qed.

Lemma at_firstn_eq (n : nat) (l l' : list Z) (i : Z) :
  firstn n l = firstn n l' -> 0 <= i < Z.of_nat n -> at_ l i = at_ l' i.
Proof.
  intros E Hi; unfold at_.
  pose proof (nth_firstn n l (Z.to_nat i) 0) as A.
  pose proof (nth_firstn n l' (Z.to_nat i) 0) as B.
  destruct (Nat.ltb_spec (Z.to_nat i) n); [|lia].
  rewrite <- A, <- B, E; reflexivity.
Qed.

(** [compress] reads the first 64 bytes at [block] and nothing else. *)
Lemma compress_prefix (st l l' : list Z) :
  firstn 64 l = firstn 64 l' -> compress st l = compress st l'.
Proof.
  intros E; unfold compress.
  assert (Hexp : expand_message l (repeat 0 52%nat) = expand_message l' (repeat 0 52%nat)).
  { unfold expand_message; f_equal.
    apply fold_left_ext_in; intros W i Hi; apply in_zrange in Hi.
    unfold parse_step.
    rewrite (at_firstn_eq 64 l l' (i * 4)), (at_firstn_eq 64 l l' (i * 4 + 1)),
      (at_firstn_eq 64 l l' (i * 4 + 2)), (at_firstn_eq 64 l l' (i * 4 + 3))
      by (assumption || lia).
    reflexivity. }
  rewrite Hexp; reflexivity.
Qed.

Lemma compress_blocks_ext (n : nat) (st l l' : list Z) :
  firstn (64 * n) l = firstn (64 * n) l' ->
  compress_blocks n st l = compress_blocks n st l'.
Proof.
  revert st l l'; induction n as [|n IH]; intros st l l' E; [reflexivity|].
  cbn [compress_blocks].
  assert (E64 : firstn 64 l = firstn 64 l').
  { apply (f_equal (firstn 64)) in E; rewrite !firstn_firstn in E.
    replace (Nat.min 64 (64 * S n)) with 64%nat in E by lia; exact E. }
  rewrite (compress_prefix st l l' E64); apply IH.
  rewrite !firstn_skipn_comm.
  replace (64 + 64 * n)%nat with (64 * S n)%nat by lia.
  now rewrite E.
Qed.

Lemma compress_blocks_add (n m : nat) (st l : list Z) :
  compress_blocks (n + m) st l
  = compress_blocks m (compress_blocks n st l) (skipn (64 * n) l).
Proof.
  revert st l; induction n as [|n IH]; intros st l.
  - rewrite Nat.mul_0_r; reflexivity.
  - cbn [compress_blocks Nat.add]; rewrite IH, skipn_skipn.
    replace (64 * n + 64)%nat with (64 * S n)%nat by lia; reflexivity.
Qed.

Lemma compress_blocks_1 (st l : list Z) : compress_blocks 1 st l = compress st l.
Proof. reflexivity. Qed.

(** Enough fuel: with [q = len / 64] the loop runs to its exit, after [q]
    calls of [compress] on consecutive blocks. *)
Lemma blocks_loop_spec (q : nat) (ctx : nexthash256_ctx) (data : list Z) (len : Z) :
  64 * Z.of_nat q <= len < 64 * Z.of_nat q + 64 ->
  blocks_loop q ctx data len
  = (mk_ctx (compress_blocks q (state ctx) data) (bitcount ctx) (buffer ctx)
            (buflen ctx) (q + compress_calls ctx),
     skipn (64 * q) data, len - 64 * Z.of_nat q).
Proof.
  revert ctx data len; induction q as [|q IH]; intros ctx data len Hlen.
  - destruct ctx; cbn [blocks_loop compress_blocks state bitcount buffer buflen
                         compress_calls Nat.add].
    rewrite Nat.mul_0_r; cbn [skipn]. repeat f_equal; lia.
  - cbn [blocks_loop].
    destruct (Z.leb_spec 64 len); [|lia].
    rewrite IH by lia.
    unfold call_compress; cbn [state bitcount buffer buflen compress_calls compress_blocks].
    rewrite skipn_skipn.
    replace (64 * q + 64)%nat with (64 * S q)%nat by lia.
    replace (q + S (compress_calls ctx))%nat with (S q + compress_calls ctx)%nat by lia.
    replace (len - 64 - 64 * Z.of_nat q) with (len - 64 * Z.of_nat (S q)) by lia.
    reflexivity.
Qed.

(** ** The streaming API follows the block fold *)

Lemma init_absorbed (ctx : nexthash256_ctx) :
  absorbed (compress_calls ctx) [] (nexthash256_init ctx).
Proof.
  constructor; cbn [nexthash256_init state bitcount buffer buflen compress_calls length];
    try reflexivity.
  change (0 / 64)%nat with 0%nat; lia.
Qed.

Section Absorbed.

(** Calls of [compress] counted before [nexthash256_init]. *)
Variable c0 : nat.

Lemma update_tail_absorbed (ctx : nexthash256_ctx) (M data : list Z) (len : Z) :
  (length M mod 64 = 0)%nat ->
  state ctx = compress_blocks (length M / 64) H_INIT M ->
  bitcount ctx = u64 (8 * (Z.of_nat (length M) + len)) ->
  buflen ctx = 0 ->
  compress_calls ctx = (c0 + length M / 64)%nat ->
  0 <= len <= Z.of_nat (length data) ->
  absorbed c0 (M ++ firstn (Z.to_nat len) data) (update_tail ctx data len).
Proof.
  intros HM Hst Hbc Hbl Hcalls Hlen.
  unfold update_tail.
  rewrite (blocks_loop_spec (Z.to_nat (len / 64))) by lia.
  remember (Z.to_nat (len / 64)) as q1 eqn:Hq1.
  set (D := firstn (Z.to_nat len) data).
  assert (HD : length D = Z.to_nat len) by (unfold D; rewrite length_firstn; lia).
  assert (Hq : (length (M ++ D) / 64 = length M / 64 + q1)%nat)
    by (rewrite length_app; lia).
  assert (Hr : (length (M ++ D) mod 64 = Z.to_nat (len - 64 * Z.of_nat q1))%nat)
    by (rewrite length_app; lia).
  assert (Hstate : compress_blocks q1 (state ctx) (skipn 0 data)
                   = compress_blocks (length (M ++ D) / 64) H_INIT (M ++ D)).
  { rewrite Hq, compress_blocks_add.
    rewrite (compress_blocks_ext _ _ (M ++ D) M) by (apply firstn_app_le; lia).
    rewrite <- Hst.
    rewrite skipn_app_exact by lia.
    apply compress_blocks_ext. unfold D; rewrite firstn_firstn.
    cbn [skipn]. f_equal; lia. }
  cbn [skipn] in Hstate.
  assert (Hbuf : firstn (Z.to_nat (len - 64 * Z.of_nat q1)) (skipn (64 * q1) data)
                 = skipn (64 * (length (M ++ D) / 64)) (M ++ D)).
  { rewrite Hq.
    replace (64 * (length M / 64 + q1))%nat with (64 * q1 + length M)%nat by lia.
    rewrite <- skipn_skipn, skipn_app_exact by reflexivity.
    unfold D; rewrite skipn_firstn_comm; f_equal; lia. }
  assert (Hbits : bitcount ctx = u64 (8 * Z.of_nat (length (M ++ D))))
    by (rewrite Hbc, length_app, HD; f_equal; lia).
  assert (Hc : (q1 + compress_calls ctx = c0 + length (M ++ D) / 64)%nat)
    by (rewrite Hq, Hcalls; lia).
  destruct (Z.ltb_spec 0 (len - 64 * Z.of_nat q1)) as [Hpos | Hzero];
    constructor; unfold set_buflen, set_buffer;
    cbn [state bitcount buffer buflen compress_calls]; try assumption.
  - rewrite Hr; lia.
  - rewrite Hr, <- Hbuf; unfold memcpy; cbn [firstn Nat.add app].
    apply firstn_app_exact; rewrite length_firstn, length_skipn; lia.
  - rewrite Hr, Hbl; lia.
  - rewrite Hr, <- Hbuf.
    replace (Z.to_nat (len - 64 * Z.of_nat q1)) with 0%nat by lia; reflexivity.
Qed.

Lemma update_absorbed (ctx : nexthash256_ctx) (M data : list Z) (len : Z) :
  absorbed c0 M ctx ->
  0 <= len <= Z.of_nat (length data) ->
  absorbed c0 (M ++ firstn (Z.to_nat len) data) (nexthash256_update ctx data len).
Proof.
  intros [Hst Hbc Hbl Hbuf Hcalls] Hlen.
  assert (Hpend : length (skipn (64 * (length M / 64)) M) = (length M mod 64)%nat)
    by (rewrite length_skipn; lia).
  assert (Hbits : u64 (bitcount ctx + u64 (len * 8))
                  = u64 (8 * (Z.of_nat (length M) + len)))
    by (rewrite Hbc; wrap64).
  unfold nexthash256_update, call_compress, set_buflen, set_buffer, set_bitcount.
  cbn [state bitcount buffer buflen compress_calls].
  rewrite Hbl.
  destruct (Z.ltb_spec 0 (Z.of_nat (length M mod 64))) as [Hb | Hb].
  - assert (Hneed : u64 (64 - Z.of_nat (length M mod 64))
                    = 64 - Z.of_nat (length M mod 64))
      by wrap64.
    rewrite Hneed.
    destruct (Z.ltb_spec len (64 - Z.of_nat (length M mod 64))) as [Hsmall | Hbig].
    + set (D := firstn (Z.to_nat len) data).
      assert (HD : length D = Z.to_nat len) by (unfold D; rewrite length_firstn; lia).
      assert (Hq : (length (M ++ D) / 64 = length M / 64)%nat)
        by (rewrite length_app; lia).
      assert (Hr : (length (M ++ D) mod 64 = length M mod 64 + Z.to_nat len)%nat)
        by (rewrite length_app; lia).
      constructor; cbn [state bitcount buffer buflen compress_calls].
      * rewrite Hq, (compress_blocks_ext _ _ (M ++ D) M) by (apply firstn_app_le; lia).
        exact Hst.
      * rewrite Hbits, length_app, HD; f_equal; lia.
      * rewrite Hr; wrap64.
      * rewrite Hr, Hq, skipn_app_le by lia.
        unfold memcpy; rewrite Nat2Z.id, Hbuf; fold D.
        rewrite app_assoc; apply firstn_app_exact.
        rewrite length_app; lia.
      * rewrite Hq; exact Hcalls.
    + set (need := Z.to_nat (64 - Z.of_nat (length M mod 64))).
      assert (Hn : need = (64 - length M mod 64)%nat) by (unfold need; lia).
      rewrite (firstn_split need (Z.to_nat len) data) by lia.
      rewrite app_assoc.
      set (M' := M ++ firstn need data).
      assert (HM' : length M' = (length M + need)%nat)
        by (unfold M'; rewrite length_app, length_firstn; lia).
      replace (Z.to_nat len - need)%nat
        with (Z.to_nat (len - (64 - Z.of_nat (length M mod 64)))) by lia.
      apply update_tail_absorbed; cbn [state bitcount buffer buflen compress_calls].
      * lia.
      * replace (length M' / 64)%nat with (length M / 64 + 1)%nat by lia.
        rewrite compress_blocks_add; cbn [compress_blocks].
        rewrite (compress_blocks_ext _ _ M' M) by (apply firstn_app_le; lia).
        rewrite <- Hst; apply compress_prefix.
        unfold M'; rewrite skipn_app_le by lia.
        unfold memcpy; rewrite Nat2Z.id, Hbuf, app_assoc.
        rewrite firstn_app_exact by (rewrite length_app, length_firstn; lia).
        symmetry; apply firstn_all2; rewrite length_app, length_firstn; lia.
      * rewrite Hbits, HM'; f_equal; lia.
      * reflexivity.
      * rewrite Hcalls; lia.
      * rewrite length_skipn; lia.
  - apply update_tail_absorbed; cbn [state bitcount buffer buflen compress_calls];
      try assumption; lia.
Qed.

Lemma upd_at_app (pre tail : list Z) (i k : nat) (v : Z) :
  i = (length pre + k)%nat -> upd i v (pre ++ tail) = pre ++ upd k v tail.
Proof. intros ->; apply upd_app_r. Qed.

Lemma final_padlen_range (ctx : nexthash256_ctx) :
  0 <= buflen ctx < 64 ->
  1 <= final_padlen ctx <= 64
  /\ (final_padlen ctx + buflen ctx = 56 \/ final_padlen ctx + buflen ctx = 120).
Proof.
  intros Hb; unfold final_padlen, u64; change (2 ^ 64) with 18446744073709551616.
  destruct (Z.ltb_spec (buflen ctx) 56); lia.
Qed.

Lemma final_pad_prefix (pad : list Z) (ctx : nexthash256_ctx) :
  length pad = 128%nat ->
  0 <= buflen ctx < 64 ->
  firstn (Z.to_nat (final_padlen ctx + 8)) (final_pad pad ctx)
  = 0x80 :: repeat 0 (Z.to_nat (final_padlen ctx - 1)) ++ be64 (bitcount ctx).
Proof.
  intros Hpad Hb.
  destruct (final_padlen_range ctx Hb) as [Hp _].
  unfold final_pad.
  remember (final_padlen ctx) as p eqn:Ep.
  assert (Hu : u64 (p - 1) = p - 1)
    by wrap64.
  rewrite Hu.
  remember (Z.to_nat (p - 1)) as n eqn:En.
  destruct pad as [|x t]; [discriminate Hpad|].
  cbn [upd]; unfold memset; cbn [firstn Nat.add skipn].
  remember (skipn n t) as tail eqn:Et.
  assert (Htail : (8 <= length tail)%nat)
    by (subst tail; rewrite length_skipn; cbn [length] in Hpad; lia).
  change ([128] ++ repeat 0 n ++ tail) with ((128 :: repeat 0 n) ++ tail).
  assert (Hpre : length (128 :: repeat 0 n) = S n)
    by (cbn [length]; now rewrite repeat_length).
  rewrite (upd_at_app _ tail _ 0) by lia.
  rewrite (upd_at_app _ _ _ 1) by lia.
  rewrite (upd_at_app _ _ _ 2) by lia.
  rewrite (upd_at_app _ _ _ 3) by lia.
  rewrite (upd_at_app _ _ _ 4) by lia.
  rewrite (upd_at_app _ _ _ 5) by lia.
  rewrite (upd_at_app _ _ _ 6) by lia.
  rewrite (upd_at_app _ _ _ 7) by lia.
  do 8 (destruct tail as [|? tail]; [cbn [length] in Htail; lia|]).
  cbn [upd].
  replace (Z.to_nat (p + 8)) with (S n + 8)%nat by lia; rewrite <- Hpre.
  rewrite firstn_app_2; cbn [firstn]; reflexivity.
Qed.

Lemma absorbed_buflen (M : list Z) (ctx : nexthash256_ctx) :
  absorbed c0 M ctx -> 0 <= buflen ctx < 64.
Proof. intros [_ _ Hbl _ _]; rewrite Hbl; lia. Qed.

Lemma final_padlen_absorbed (M : list Z) (ctx : nexthash256_ctx) :
  absorbed c0 M ctx -> final_padlen ctx = spec_padlen (Z.of_nat (length M)).
Proof.
  intros [_ _ Hbl _ _]; unfold final_padlen, spec_padlen, u64; rewrite Hbl.
  change (2 ^ 64) with 18446744073709551616.
  replace (Z.of_nat (length M mod 64)) with (Z.of_nat (length M) mod 64) by lia.
  destruct (Z.ltb_spec (Z.of_nat (length M) mod 64) 56); lia.
Qed.

Lemma final_absorb_absorbed (M : list Z) (ctx : nexthash256_ctx) :
  absorbed c0 M ctx ->
  absorbed c0 (M ++ spec_pad (Z.of_nat (length M))) (final_absorb ctx).
Proof.
  intros Habs.
  pose proof (absorbed_buflen _ _ Habs) as Hb.
  destruct (final_padlen_range ctx Hb) as [Hp _].
  pose proof (final_pad_prefix (repeat 0 128%nat) ctx (repeat_length _ _) Hb) as Hpre.
  assert (Hu : u64 (final_padlen ctx + 8) = final_padlen ctx + 8)
    by wrap64.
  assert (Hspec : spec_pad (Z.of_nat (length M))
                  = firstn (Z.to_nat (final_padlen ctx + 8))
                           (final_pad (repeat 0 128%nat) ctx)).
  { rewrite Hpre; unfold spec_pad.
    rewrite <- (final_padlen_absorbed _ _ Habs).
    destruct Habs as [_ Hbc _ _ _]; now rewrite Hbc. }
  unfold final_absorb; rewrite Hu, Hspec.
  apply update_absorbed; [exact Habs|].
  split; [lia|].
  apply (f_equal (@length Z)) in Hpre.
  rewrite length_firstn in Hpre; cbn [length] in Hpre.
  rewrite length_app, repeat_length in Hpre; cbn [be64 length] in Hpre.
  lia.
Qed.

Lemma spec_pad_length (L : Z) :
  0 <= L -> (Z.of_nat (length (spec_pad L)) + L) mod 64 = 0
            /\ 9 <= Z.of_nat (length (spec_pad L)) <= 72.
Proof.
  intros HL; unfold spec_pad, spec_padlen; cbn [length].
  rewrite length_app, repeat_length; cbn [be64 length].
  destruct (Z.ltb_spec (L mod 64) 56); lia.
Qed.

Lemma final_digest (M : list Z) (ctx : nexthash256_ctx) :
  absorbed c0 M ctx -> snd (nexthash256_final ctx) = nexthash256_spec M.
Proof.
  intros Habs; unfold nexthash256_final, nexthash256_spec; cbn [snd].
  now destruct (final_absorb_absorbed _ _ Habs) as [-> _ _ _ _].
Qed.

Lemma absorb_all_absorbed (parts : list (list Z)) :
  forall (M : list Z) (ctx : nexthash256_ctx),
  absorbed c0 M ctx -> absorbed c0 (M ++ concat parts) (absorb_all ctx parts).
Proof.
  induction parts as [|p parts IH]; intros M ctx Habs; cbn [concat absorb_all fold_left].
  - now rewrite app_nil_r.
  - rewrite app_assoc; apply IH.
    rewrite <- (firstn_all p) at 1.
    rewrite <- (Nat2Z.id (length p)) at 1.
    apply update_absorbed; [exact Habs | lia].
Qed.

End Absorbed.

(** ** Padding, length suffix and call count *)

Lemma be_value_be64 (x : Z) : 0 <= x < 2 ^ 64 -> be_value (be64 x) = x.
Proof.
  intros Hx; unfold be_value, be64, u8; cbn [fold_left].
  rewrite !Z.shiftr_div_pow2 by lia.
  change (2 ^ 64) with 18446744073709551616 in Hx.
  change (2 ^ 56) with 72057594037927936; change (2 ^ 48) with 281474976710656;
  change (2 ^ 40) with 1099511627776; change (2 ^ 32) with 4294967296;
  change (2 ^ 24) with 16777216; change (2 ^ 16) with 65536; change (2 ^ 8) with 256.
  lia.
Qed.

Lemma stream_absorbed (ctx0 : nexthash256_ctx) (parts : list (list Z)) :
  absorbed (compress_calls ctx0) (concat parts)
           (absorb_all (nexthash256_init ctx0) parts).
Proof.
  change (concat parts) with ([] ++ concat parts).
  apply absorb_all_absorbed, init_absorbed.
Qed.

Lemma nexthash256_digest (ctx : nexthash256_ctx) (data : list Z) (len : Z) :
  0 <= len <= Z.of_nat (length data) ->
  nexthash256 ctx data len = nexthash256_spec (firstn (Z.to_nat len) data).
Proof.
  intros Hlen; unfold nexthash256.
  apply (final_digest (compress_calls ctx)).
  change (firstn (Z.to_nat len) data) with ([] ++ firstn (Z.to_nat len) data).
  apply update_absorbed; [apply init_absorbed | exact Hlen].
Qed.

(** C1: for every byte sequence cut into any number of parts (none, or
    some of them empty), [nexthash256_init], one [nexthash256_update] per
    part in order, then [nexthash256_final] give the digest that the
    one-shot [nexthash256] gives on the whole sequence; [ctx] and [ctx']
    are what the two contexts held before [nexthash256_init]. *)
Theorem streaming_equivalence (ctx ctx' : nexthash256_ctx) (parts : list (list Z)) :
  snd (nexthash256_final (absorb_all (nexthash256_init ctx) parts))
  = nexthash256 ctx' (concat parts) (Z.of_nat (length (concat parts))).
Proof.
  rewrite (final_digest _ _ _ (stream_absorbed ctx parts)).
  rewrite nexthash256_digest by lia.
  now rewrite Nat2Z.id, firstn_all.
Qed.

(** C4: hashing [L] bytes through init, updates and final calls
    [compress] exactly [n = ceil((L + 9) / 64)] times, that is
    [64 (n - 1) < L + 9 <= 64 n]; before padding [buflen = L mod 64], the
    padding length is [56 - b] when [b = L mod 64 < 56] and [120 - b]
    otherwise, and absorbing the [padlen + 8] bytes makes one or two more
    calls and leaves [buflen = 0]. *)
Theorem compress_call_count (ctx0 : nexthash256_ctx) (parts : list (list Z)) :
  let L := Z.of_nat (length (concat parts)) in
  let ctx := absorb_all (nexthash256_init ctx0) parts in
  let n := Z.of_nat (compress_calls (fst (nexthash256_final ctx)))
           - Z.of_nat (compress_calls ctx0) in
  64 * (n - 1) < L + 9 <= 64 * n
  /\ n = (L + 9 + 63) / 64
  /\ buflen ctx = L mod 64
  /\ final_padlen ctx = (if L mod 64 <? 56 then 56 - L mod 64 else 120 - L mod 64)
  /\ buflen (final_absorb ctx) = 0
  /\ Z.of_nat (compress_calls (final_absorb ctx)) - Z.of_nat (compress_calls ctx)
     = (if L mod 64 <? 56 then 1 else 2).
Proof.
  intros L ctx n.
  pose proof (stream_absorbed ctx0 parts) as Habs; fold ctx in Habs.
  pose proof (final_padlen_absorbed _ _ _ Habs) as Hpl.
  pose proof (final_absorb_absorbed _ _ _ Habs) as Hfin.
  fold L in Hpl, Hfin.
  destruct (spec_pad_length L) as [Hmod Hrange]; [lia|].
  destruct Habs as [_ _ Hbl _ Hc], Hfin as [_ _ Hbl' _ Hc'].
  rewrite length_app in Hbl', Hc'.
  assert (Hn : n = Z.of_nat (length (concat parts) + length (spec_pad L)) / 64)
    by (unfold n, nexthash256_final; cbn [fst compress_calls]; lia).
  assert (Hlen : Z.of_nat (length (spec_pad L))
                 = (if L mod 64 <? 56 then 56 - L mod 64 else 120 - L mod 64) + 8).
  { unfold spec_pad, spec_padlen; cbn [length].
    rewrite length_app, repeat_length; cbn [be64 length].
    destruct (Z.ltb_spec (L mod 64) 56); lia. }
  unfold spec_padlen in Hpl.
  destruct (Z.ltb_spec (L mod 64) 56); repeat split; try lia.
Qed.

(** C5: the eight bytes that [nexthash256_final] stores after the padding
    are the big-endian encoding of [8 L mod 2^64], the bit count of the
    [L] user bytes read before the padding is absorbed; the padding goes
    through [nexthash256_update], which moves the counter on to
    [8 (L + padlen + 8) mod 2^64], and the digest is computed from the
    blocks of the message followed by [0x80], the zero bytes and that
    suffix. *)
Theorem length_suffix_pre_padding (ctx0 : nexthash256_ctx) (parts : list (list Z)) :
  let L := Z.of_nat (length (concat parts)) in
  let ctx := absorb_all (nexthash256_init ctx0) parts in
  let pad := final_pad (repeat 0 128%nat) ctx in
  let padlen := final_padlen ctx in
  let suffix := firstn 8 (skipn (Z.to_nat padlen) pad) in
  bitcount ctx = (8 * L) mod 2 ^ 64
  /\ suffix = be64 ((8 * L) mod 2 ^ 64)
  /\ be_value suffix = (8 * L) mod 2 ^ 64
  /\ firstn (Z.to_nat (padlen + 8)) pad
     = 0x80 :: repeat 0 (Z.to_nat (padlen - 1)) ++ suffix
  /\ final_absorb ctx = nexthash256_update ctx pad (u64 (padlen + 8))
  /\ bitcount (final_absorb ctx) = (8 * (L + padlen + 8)) mod 2 ^ 64
  /\ snd (nexthash256_final ctx) = finalize_hash (state (final_absorb ctx))
  /\ state (final_absorb ctx)
     = let P := concat parts ++ firstn (Z.to_nat (padlen + 8)) pad in
       compress_blocks (length P / 64) H_INIT P.
Proof.
  intros L ctx pad padlen suffix.
  pose proof (stream_absorbed ctx0 parts) as Habs; fold ctx in Habs.
  pose proof (absorbed_buflen _ _ _ Habs) as Hb.
  destruct (final_padlen_range ctx Hb) as [Hp _]; fold padlen in Hp.
  pose proof (final_pad_prefix (repeat 0 128%nat) ctx (repeat_length _ _) Hb) as Hpre.
  fold pad padlen in Hpre.
  pose proof (final_padlen_absorbed _ _ _ Habs) as Hpl; fold padlen L in Hpl.
  pose proof (final_absorb_absorbed _ _ _ Habs) as Hfin; fold L in Hfin.
  assert (Hbc : bitcount ctx = (8 * L) mod 2 ^ 64) by (now destruct Habs).
  assert (Hsuf : suffix = be64 ((8 * L) mod 2 ^ 64)).
  { unfold suffix.
    replace 8%nat with (Z.to_nat (padlen + 8) - Z.to_nat padlen)%nat by lia.
    rewrite <- skipn_firstn_comm, Hpre, Hbc.
    change (128 :: repeat 0 (Z.to_nat (padlen - 1)) ++ be64 ((8 * L) mod 2 ^ 64))
      with ((128 :: repeat 0 (Z.to_nat (padlen - 1))) ++ be64 ((8 * L) mod 2 ^ 64)).
    apply skipn_app_exact; cbn [length]; rewrite repeat_length; lia. }
  assert (Hspec : spec_pad L = firstn (Z.to_nat (padlen + 8)) pad)
    by (rewrite Hpre, Hbc; unfold spec_pad; now rewrite Hpl).
  split; [exact Hbc|]. split; [exact Hsuf|].
  split; [rewrite Hsuf; apply be_value_be64; apply Z.mod_pos_bound; lia|].
  split; [now rewrite Hpre, Hsuf, Hbc|].
  split; [reflexivity|].
  split.
  { destruct Hfin as [_ Hbits _ _ _]; rewrite Hbits, length_app.
    assert (Hlen : Z.of_nat (length (spec_pad L)) = padlen + 8).
    { rewrite Hspec, length_firstn.
      apply (f_equal (@length Z)) in Hpre. rewrite length_firstn in Hpre.
      cbn [length] in Hpre; rewrite length_app, repeat_length in Hpre.
      cbn [be64 length] in Hpre. lia. }
    unfold u64; f_equal; lia. }
  split; [reflexivity|].
  cbv zeta; rewrite <- Hspec. now destruct Hfin.
Qed.

(** C7: on return from [nexthash256_final] the 16 state words, the 64
    buffer bytes, [bitcount] and [buflen] are all zero. *)
Theorem final_zeroes_context (ctx : nexthash256_ctx) :
  let ctx' := fst (nexthash256_final ctx) in
  state ctx' = repeat 0 16%nat
  /\ bitcount ctx' = 0
  /\ buffer ctx' = repeat 0 64%nat
  /\ buflen ctx' = 0
  /\ (forall i, at_ (state ctx') i = 0)
  /\ (forall i, at_ (buffer ctx') i = 0).
Proof.
  cbv zeta; unfold nexthash256_final; cbn [fst state bitcount buffer buflen].
  repeat split; try reflexivity; intros i; unfold at_.
  - destruct (nth_in_or_default (Z.to_nat i) (repeat 0 16%nat) 0) as [Hin | ->];
      [apply repeat_spec in Hin; exact Hin | reflexivity].
  - destruct (nth_in_or_default (Z.to_nat i) (repeat 0 64%nat) 0) as [Hin | ->];
      [apply repeat_spec in Hin; exact Hin | reflexivity].
Qed.

(** C8: on a context whose counters are in the ranges of the data model
    ([bitcount] a 64-bit value, [buflen] below 64),
    [nexthash256_update(ctx, data, 0)] returns the context unchanged in
    every field, whatever [data] points to. *)
Theorem update_zero_length (ctx : nexthash256_ctx) (data : list Z) :
  0 <= bitcount ctx < 2 ^ 64 ->
  0 <= buflen ctx < 64 ->
  nexthash256_update ctx data 0 = ctx.
Proof.
  intros Hbc Hbl.
  unfold nexthash256_update, set_buflen, set_buffer, set_bitcount.
  cbn [state bitcount buffer buflen compress_calls].
  assert (E1 : u64 (bitcount ctx + u64 (0 * 8)) = bitcount ctx)
    by wrap64.
  rewrite E1.
  destruct (Z.ltb_spec 0 (buflen ctx)) as [Hpos | Hzero].
  - assert (E2 : (0 <? u64 (64 - buflen ctx)) = true)
      by (apply Z.ltb_lt; wrap64).
    assert (E3 : u64 (buflen ctx + 0) = buflen ctx)
      by wrap64.
    rewrite E2, E3; unfold memcpy.
    change (Z.to_nat 0) with 0%nat; cbn [firstn app].
    rewrite Nat.add_0_r, firstn_skipn.
    destruct ctx; reflexivity.
  - unfold update_tail; change (Z.to_nat (0 / 64)) with 0%nat; cbn [blocks_loop].
    change (0 <? 0) with false; cbv iota.
    destruct ctx; reflexivity.
Qed.

(** The bound on [buflen] is needed: a structure holding [buflen = 64],
    which no [reachable] context does, has a full buffer that a call with
    [len = 0] compresses. *)
Remark full_buffer_zero_length_update (ctx : nexthash256_ctx) (data : list Z) :
  buflen ctx = 64 ->
  compress_calls (nexthash256_update ctx data 0) = S (compress_calls ctx).
Proof.
  intros Hbl.
  unfold nexthash256_update, call_compress, set_buflen, set_buffer, set_bitcount.
  cbn [state bitcount buffer buflen compress_calls]; rewrite Hbl.
  reflexivity.
Qed.

(** ** Invariant of the buffer length *)

Lemma update_tail_buflen (ctx : nexthash256_ctx) (data : list Z) (len : Z) :
  0 <= buflen ctx < 64 -> 0 <= len ->
  0 <= buflen (update_tail ctx data len) < 64.
Proof.
  intros Hbl Hlen; unfold update_tail.
  rewrite (blocks_loop_spec (Z.to_nat (len / 64))) by lia.
  destruct (Z.ltb_spec 0 (len - 64 * Z.of_nat (Z.to_nat (len / 64))));
    unfold set_buflen; cbn [buflen]; lia.
Qed.

Lemma update_buflen (ctx : nexthash256_ctx) (data : list Z) (len : Z) :
  0 <= buflen ctx < 64 -> 0 <= len ->
  0 <= buflen (nexthash256_update ctx data len) < 64.
Proof.
  intros Hbl Hlen.
  unfold nexthash256_update, call_compress, set_buflen, set_buffer, set_bitcount.
  cbn [state bitcount buffer buflen compress_calls].
  assert (Hneed : u64 (64 - buflen ctx) = 64 - buflen ctx)
    by wrap64.
  rewrite Hneed.
  destruct (Z.ltb_spec 0 (buflen ctx)).
  - destruct (Z.ltb_spec len (64 - buflen ctx)).
    + cbn [buflen]; wrap64.
    + apply update_tail_buflen; cbn [buflen]; lia.
  - apply update_tail_buflen; cbn [buflen]; lia.
Qed.

(** C9: after [nexthash256_init] and after every later call of
    [nexthash256_update], whatever its length, [0 <= buflen < 64]. *)
Theorem buflen_below_64 (ctx : nexthash256_ctx) :
  reachable ctx -> 0 <= buflen ctx < 64.
Proof.
  induction 1 as [ctx | ctx data len Hr IH Hlen].
  - cbn [nexthash256_init buflen]; lia.
  - apply update_buflen; assumption.
Qed.

(** ** HMAC *)

Lemma digest_step_length (folded digest : list Z) (i : Z) :
  length (digest_step folded digest i) = length digest.
Proof. unfold digest_step; now rewrite !upd_length. Qed.

Lemma finalize_hash_length (st : list Z) : length (finalize_hash st) = 32%nat.
Proof.
  unfold finalize_hash.
  rewrite fold_left_length_inv by (intros; apply digest_step_length).
  apply repeat_length.
Qed.

Lemma nexthash256_spec_length (M : list Z) : length (nexthash256_spec M) = 32%nat.
Proof. apply finalize_hash_length. Qed.

Lemma key_loop_length (key : list Z) (l : list Z) (pads : list Z * list Z) :
  length (fst (fold_left (key_step key) l pads)) = length (fst pads)
  /\ length (snd (fold_left (key_step key) l pads)) = length (snd pads).
Proof.
  revert pads; induction l as [|i l IH]; intros [a b]; cbn [fold_left]; [now split|].
  destruct (IH (key_step key (a, b) i)) as [Ha Hb].
  rewrite Ha, Hb; unfold key_step; cbn [fst snd]; now rewrite !upd_length.
Qed.

Lemma two_part_digest (ctx : nexthash256_ctx) (a b : list Z) (alen blen : Z) :
  0 <= alen <= Z.of_nat (length a) ->
  0 <= blen <= Z.of_nat (length b) ->
  snd (nexthash256_final
         (nexthash256_update (nexthash256_update (nexthash256_init ctx) a alen) b blen))
  = nexthash256_spec (firstn (Z.to_nat alen) a ++ firstn (Z.to_nat blen) b).
Proof.
  intros Ha Hb.
  apply (final_digest (compress_calls ctx)).
  apply update_absorbed; [|exact Hb].
  change (firstn (Z.to_nat alen) a) with ([] ++ firstn (Z.to_nat alen) a).
  apply update_absorbed; [apply init_absorbed | exact Ha].
Qed.

Lemma hmac_short_key (ctx ctx_key : nexthash256_ctx)
    (key : list Z) (keylen : Z) (data : list Z) (datalen : Z) :
  keylen <= 64 ->
  0 <= datalen <= Z.of_nat (length data) ->
  hmac_nexthash256 ctx ctx_key key keylen data datalen
  = spec_hmac key keylen (firstn (Z.to_nat datalen) data).
Proof.
  intros Hk Hd; unfold hmac_nexthash256, spec_hmac.
  destruct (Z.ltb_spec 64 keylen) as [|_]; [lia|].
  change (memset (repeat 0 64%nat) 0 54 64) with (repeat 54 64%nat).
  change (memset (repeat 0 64%nat) 0 92 64) with (repeat 92 64%nat).
  pose proof (key_loop_length key (zrange 0 (Z.to_nat keylen))
                (repeat 54 64%nat, repeat 92 64%nat)) as [Hi Ho].
  destruct (fold_left (key_step key) (zrange 0 (Z.to_nat keylen))
              (repeat 54 64%nat, repeat 92 64%nat)) as [k_ipad k_opad].
  cbn [fst snd] in Hi, Ho; rewrite repeat_length in Hi, Ho.
  pose proof (two_part_digest ctx k_ipad data 64 datalen) as Hinner.
  destruct (nexthash256_final
              (nexthash256_update (nexthash256_update (nexthash256_init ctx) k_ipad 64)
                                  data datalen)) as [ctx1 digest].
  cbn [snd] in Hinner; rewrite Hinner by lia.
  rewrite two_part_digest by (rewrite ?nexthash256_spec_length; lia).
  change (Z.to_nat 64) with 64%nat; change (Z.to_nat 32) with 32%nat.
  rewrite (firstn_all2 (n := 64) k_ipad), (firstn_all2 (n := 64) k_opad) by lia.
  now rewrite (firstn_all2 (n := 32)) by (rewrite nexthash256_spec_length; lia).
Qed.

Lemma hmac_hashes_long_key (ctx ctx_key : nexthash256_ctx)
    (key : list Z) (keylen : Z) (data : list Z) (datalen : Z) :
  64 < keylen ->
  hmac_nexthash256 ctx ctx_key key keylen data datalen
  = hmac_nexthash256 ctx ctx_key (nexthash256 ctx_key key keylen) 32 data datalen.
Proof.
  intros Hk; unfold hmac_nexthash256.
  destruct (Z.ltb_spec 64 keylen) as [_|]; [|lia].
  change (64 <? 32) with false; reflexivity.
Qed.

(** C6: for a key [K] of more than 64 bytes, [hmac_nexthash256] on [K]
    and on the 32-byte digest [nexthash256(K)] give the same MAC; the
    [ctx] arguments are what the local contexts of the five calls held. *)
Theorem hmac_long_key (ctx ctx_key ctx' ctx_key' ctx_h : nexthash256_ctx)
    (K M : list Z) (keylen mlen : Z) :
  keylen = Z.of_nat (length K) ->
  64 < keylen ->
  0 <= mlen <= Z.of_nat (length M) ->
  hmac_nexthash256 ctx ctx_key K keylen M mlen
  = hmac_nexthash256 ctx' ctx_key' (nexthash256 ctx_h K keylen) 32 M mlen.
Proof.
  intros HK Hlong Hm.
  rewrite hmac_hashes_long_key by exact Hlong.
  rewrite !hmac_short_key by lia.
  now rewrite !nexthash256_digest by lia.
Qed.

(** ** Concrete runs *)

Lemma hmac_long_key_witness :
  hmac_nexthash256 zero_ctx zero_ctx (repeat 11 65%nat) 65 [72; 105] 2
  = hmac_nexthash256 zero_ctx zero_ctx
      (nexthash256 zero_ctx (repeat 11 65%nat) 65) 32 [72; 105] 2.
Proof.
  apply (hmac_long_key zero_ctx zero_ctx zero_ctx zero_ctx zero_ctx
           (repeat 11 65%nat) [72; 105] 65 2).
  - reflexivity.
  - lia.
  - simpl; lia.
Defined.

Lemma update_zero_length_witness :
  nexthash256_update (mk_ctx H_INIT 24 (repeat 97 64%nat) 3 0) [1; 2] 0
  = mk_ctx H_INIT 24 (repeat 97 64%nat) 3 0.
Proof.
  apply (update_zero_length (mk_ctx H_INIT 24 (repeat 97 64%nat) 3 0) [1; 2]).
  - simpl; lia.
  - simpl; lia.
Defined.

Lemma buflen_below_64_witness :
  0 <= buflen (nexthash256_update (nexthash256_init zero_ctx) (repeat 7 100%nat) 100) < 64.
Proof.
  apply (buflen_below_64
           (nexthash256_update (nexthash256_init zero_ctx) (repeat 7 100%nat) 100)).
  apply reach_update; [apply reach_init | lia].
Defined.

Example schedule_big_endian :
  at_ (expand_message ([0; 1; 2; 3] ++ repeat 0 60%nat) (repeat 0 52%nat)) 0 = 0x00010203.
Proof. vm_compute; reflexivity. Qed.

(** Message lengths on both sides of the one-block and two-block padding. *)
Example compress_calls_at_boundaries :
  map (fun L => compress_calls
                  (fst (nexthash256_final
                          (absorb_all (nexthash256_init zero_ctx) [repeat 97 L]))))
      [0; 55; 56; 63; 64; 119; 120]%nat
  = [1; 1; 2; 2; 2; 2; 3]%nat.
Proof. vm_compute; reflexivity. Qed.

(** Seventy bytes, in one-byte updates and in one call. *)
Example byte_by_byte_70 :
  snd (nexthash256_final
         (absorb_all (nexthash256_init zero_ctx) (map (fun b => [b]) (repeat 97 70%nat))))
  = nexthash256 zero_ctx (repeat 97 70%nat) 70.
Proof. vm_compute; reflexivity. Qed.

(* ====================================================================== *)
(** * Further properties of the code *)
(* ====================================================================== *)

(** ** Words, rotations and boolean functions *)

Lemma testbit_u32 (x i : Z) : Z.testbit (u32 x) i = (i <? 32) && Z.testbit x i.
Proof. unfold u32; apply Z.testbit_mod_pow2; lia. Qed.

Lemma word32_high_bits (x i : Z) : word32 x -> 32 <= i -> Z.testbit x i = false.
Proof.
  intros Hx Hi; rewrite <- (Z.mod_small x (2 ^ 32)) by exact Hx.
  apply Z.mod_pow2_bits_high; lia.
Qed.

Lemma u32_range (x : Z) : word32 (u32 x).
Proof. unfold word32, u32; apply Z.mod_pos_bound; lia. Qed.

Lemma word32_of_bits (x : Z) :
  0 <= x -> (forall i, 32 <= i -> Z.testbit x i = false) -> word32 x.
Proof.
  intros Hx Hb.
  assert (E : x = u32 x).
  { apply Z.bits_inj'; intros i Hi; rewrite testbit_u32.
    destruct (Z.ltb_spec i 32); [reflexivity | now rewrite Hb by lia]. }
  rewrite E; apply u32_range.
Qed.

Lemma testbit_rotr (x n i : Z) :
  word32 x -> 0 < n < 32 -> 0 <= i ->
  Z.testbit (rotr x n) i = (i <? 32) && Z.testbit x ((i + n) mod 32).
Proof.
  intros Hx Hn Hi; unfold rotr, shr32, shl32.
  rewrite Z.lor_spec, Z.shiftr_spec, testbit_u32, Z.shiftl_spec by lia.
  destruct (Z.ltb_spec i 32) as [Hlt | Hge]; cbn [andb].
  - destruct (Z.ltb_spec (i + n) 32) as [Hs | Hs].
    + rewrite (Z.testbit_neg_r x (i - (32 - n))) by lia.
      rewrite Z.mod_small by lia; apply orb_false_r.
    + rewrite (word32_high_bits x (i + n)) by (assumption || lia).
      cbn [orb]; f_equal; lia.
  - rewrite (word32_high_bits x (i + n)) by (assumption || lia); reflexivity.
Qed.

Lemma testbit_rotl (x n i : Z) :
  word32 x -> 0 < n < 32 -> 0 <= i ->
  Z.testbit (rotl x n) i = (i <? 32) && Z.testbit x ((i - n) mod 32).
Proof.
  intros Hx Hn Hi; unfold rotl, shr32, shl32.
  rewrite Z.lor_spec, Z.shiftr_spec, testbit_u32, Z.shiftl_spec by lia.
  destruct (Z.ltb_spec i 32) as [Hlt | Hge]; cbn [andb].
  - destruct (Z.ltb_spec i n) as [Hs | Hs].
    + rewrite (Z.testbit_neg_r x (i - n)) by lia.
      cbn [orb]; f_equal; lia.
    + rewrite (word32_high_bits x (i + (32 - n))) by (assumption || lia).
      rewrite orb_false_r; f_equal; lia.
  - rewrite (word32_high_bits x (i + (32 - n))) by (assumption || lia); reflexivity.
Qed.

Lemma rotr_word32 (x n : Z) : word32 x -> 0 < n < 32 -> word32 (rotr x n).
Proof.
  intros Hx Hn; apply word32_of_bits.
  - unfold rotr, shr32, shl32, u32. apply Z.lor_nonneg; split.
    + apply Z.shiftr_nonneg; apply Hx.
    + apply Z.mod_pos_bound; lia.
  - intros i Hi; rewrite testbit_rotr by (assumption || lia).
    destruct (Z.ltb_spec i 32); [lia | reflexivity].
Qed.

Lemma rotl_word32 (x n : Z) : word32 x -> 0 < n < 32 -> word32 (rotl x n).
Proof.
  intros Hx Hn; apply word32_of_bits.
  - unfold rotl, shr32, shl32, u32. apply Z.lor_nonneg; split.
    + apply Z.mod_pos_bound; lia.
    + apply Z.shiftr_nonneg; apply Hx.
  - intros i Hi; rewrite testbit_rotl by (assumption || lia).
    destruct (Z.ltb_spec i 32); [lia | reflexivity].
Qed.

(** X1: on a 32-bit word and for [0 < n < 32], [rotl] undoes [rotr] and
    [rotr] undoes [rotl], [rotr] by [n] is [rotl] by [32 - n], and both
    results are 32-bit words. *)
Theorem rotations_inverse (x n : Z) :
  word32 x -> 0 < n < 32 ->
  rotl (rotr x n) n = x /\ rotr (rotl x n) n = x /\ rotr x n = rotl x (32 - n)
  /\ word32 (rotr x n) /\ word32 (rotl x n).
Proof.
  intros Hx Hn; repeat split; try (apply rotr_word32 || apply rotl_word32; assumption).
  - apply Z.bits_inj'; intros i Hi.
    rewrite testbit_rotl by (try apply rotr_word32; assumption || lia).
    destruct (Z.ltb_spec i 32) as [Hlt | Hge]; cbn [andb].
    + rewrite testbit_rotr by (assumption || lia).
      destruct (Z.ltb_spec ((i - n) mod 32) 32); [|lia]; cbn [andb].
      f_equal; lia.
    + symmetry; apply word32_high_bits; assumption.
  - apply Z.bits_inj'; intros i Hi.
    rewrite testbit_rotr by (try apply rotl_word32; assumption || lia).
    destruct (Z.ltb_spec i 32) as [Hlt | Hge]; cbn [andb].
    + rewrite testbit_rotl by (assumption || lia).
      destruct (Z.ltb_spec ((i + n) mod 32) 32); [|lia]; cbn [andb].
      f_equal; lia.
    + symmetry; apply word32_high_bits; assumption.
  - unfold rotr, rotl; rewrite Z.lor_comm; do 2 f_equal; lia.
Qed.

(** X2: in each of the 32 bit positions, [Ch] selects the bit of [y]
    where [x] has a one and the bit of [z] where it has a zero, and [Maj]
    is the majority of the three bits. *)
Theorem Ch_Maj_bitwise (x y z i : Z) :
  0 <= i < 32 ->
  Z.testbit (Ch x y z) i = (if Z.testbit x i then Z.testbit y i else Z.testbit z i)
  /\ Z.testbit (Maj x y z) i
     = (Z.testbit x i && Z.testbit y i) || (Z.testbit x i && Z.testbit z i)
       || (Z.testbit y i && Z.testbit z i).
Proof.
  intros Hi; unfold Ch, Maj, not32.
  rewrite !Z.lxor_spec, !Z.land_spec, testbit_u32, Z.lnot_spec by lia.
  destruct (Z.ltb_spec i 32); [|lia].
  split; destruct (Z.testbit x i), (Z.testbit y i), (Z.testbit z i); reflexivity.
Qed.

Lemma lxor_word32 (a b : Z) : word32 a -> word32 b -> word32 (Z.lxor a b).
Proof.
  intros Ha Hb; apply word32_of_bits.
  - apply Z.lxor_nonneg; split; intros _; [apply Hb | apply Ha].
  - intros i Hi; rewrite Z.lxor_spec, !word32_high_bits by assumption; reflexivity.
Qed.

(** X3: on 32-bit words [widening_mul] is the XOR of the high and low
    halves of the exact product (no wrap-around occurs on 64 bits); it is
    commutative and its result is a 32-bit word. *)
Theorem widening_mul_fold (a b : Z) :
  word32 a -> word32 b ->
  widening_mul a b = Z.lxor ((a * b) / 2 ^ 32) ((a * b) mod 2 ^ 32)
  /\ widening_mul a b = widening_mul b a
  /\ word32 (widening_mul a b).
Proof.
  intros Ha Hb; unfold word32 in Ha, Hb.
  assert (Hp : 0 <= a * b < 2 ^ 64) by nia.
  assert (Hhi : 0 <= (a * b) / 2 ^ 32 < 2 ^ 32).
  { split; [apply Z.div_pos; lia|].
    apply Z.div_lt_upper_bound; [lia|]. change (2 ^ 32 * 2 ^ 32) with (2 ^ 64); lia. }
  repeat split.
  - unfold widening_mul, u64, u32; cbv zeta.
    rewrite (Z.mod_small (a * b) (2 ^ 64)) by exact Hp.
    rewrite Z.shiftr_div_pow2 by lia.
    now rewrite (Z.mod_small (a * b / 2 ^ 32)) by exact Hhi.
  - unfold widening_mul; now rewrite (Z.mul_comm a b).
  - unfold widening_mul; cbv zeta; apply lxor_word32; apply u32_range.
  - unfold widening_mul; cbv zeta; apply lxor_word32; apply u32_range.
Qed.

(** ** Message schedule and compression *)

Lemma lor_shift_add (hi lo k : Z) :
  0 <= k -> 0 <= lo < 2 ^ k -> Z.lor (hi * 2 ^ k) lo = hi * 2 ^ k + lo.
Proof.
  intros Hk Hlo.
  assert (Hland : Z.land (hi * 2 ^ k) lo = 0).
  { apply Z.bits_inj'; intros i Hi; rewrite Z.land_spec, Z.bits_0.
    destruct (Z.ltb_spec i k).
    - now rewrite Z.mul_pow2_bits_low by lia.
    - rewrite <- (Z.mod_small lo (2 ^ k)) by exact Hlo.
      rewrite Z.mod_pow2_bits_high by lia. apply andb_false_r. }
  now rewrite <- Z.lxor_lor, <- Z.add_nocarry_lxor by exact Hland.
Qed.

Lemma parse_fold_at (block : list Z) (n : nat) (W : list Z) (i : Z) :
  (n <= length W)%nat -> 0 <= i < Z.of_nat n ->
  at_ (fold_left (parse_step block) (zrange 0 n) W) i
  = Z.lor (Z.lor (Z.lor (shl32 (u32 (at_ block (i * 4))) 24)
                        (shl32 (u32 (at_ block (i * 4 + 1))) 16))
                 (shl32 (u32 (at_ block (i * 4 + 2))) 8))
          (u32 (at_ block (i * 4 + 3))).
Proof.
  induction n as [|n IH]; intros Hn Hi; [lia|].
  rewrite zrange_S, fold_left_app; cbn [fold_left Nat.add].
  set (F := fold_left (parse_step block) (zrange 0 n) W) in *.
  assert (HF : length F = length W)
    by (apply fold_left_length_inv; intros; apply upd_length).
  unfold parse_step at 1, at_ at 1.
  destruct (Z.eq_dec i (Z.of_nat n)) as [-> | Hne].
  - rewrite nth_upd_same by lia; reflexivity.
  - rewrite nth_upd_other by lia. apply IH; lia.
Qed.

Lemma shl32_byte (b k : Z) : byte8 b -> 0 <= k <= 24 -> shl32 (u32 b) k = b * 2 ^ k.
Proof.
  intros Hb Hk; unfold byte8 in Hb; unfold shl32, u32.
  rewrite (Z.mod_small b) by (change (2 ^ 8) with 256 in Hb; change (2 ^ 32) with 4294967296; lia).
  rewrite Z.shiftl_mul_pow2 by lia.
  apply Z.mod_small.
  assert (2 ^ k <= 2 ^ 24) by (apply Z.pow_le_mono_r; lia).
  change (2 ^ 8) with 256 in Hb; change (2 ^ 24) with 16777216 in *.
  change (2 ^ 32) with 4294967296. nia.
Qed.

(** X4: the first 16 schedule words are the big-endian values of the
    block: [W[i] = 2^24 b[4i] + 2^16 b[4i+1] + 2^8 b[4i+2] + b[4i+3]]. *)
Theorem parse_big_endian (block W : list Z) (i : Z) :
  length W = 52%nat ->
  0 <= i < 16 ->
  byte8 (at_ block (i * 4)) -> byte8 (at_ block (i * 4 + 1)) ->
  byte8 (at_ block (i * 4 + 2)) -> byte8 (at_ block (i * 4 + 3)) ->
  at_ (expand_message block W) i
  = at_ block (i * 4) * 2 ^ 24 + at_ block (i * 4 + 1) * 2 ^ 16
    + at_ block (i * 4 + 2) * 2 ^ 8 + at_ block (i * 4 + 3).
Proof.
  intros HW Hi H0 H1 H2 H3; unfold expand_message.
  rewrite schedule_fold_below by lia.
  rewrite (parse_fold_at block 16) by lia.
  rewrite !shl32_byte by (assumption || lia).
  assert (E3 : u32 (at_ block (i * 4 + 3)) = at_ block (i * 4 + 3))
    by (apply Z.mod_small; unfold byte8 in H3; change (2 ^ 8) with 256 in H3;
        change (2 ^ 32) with 4294967296; lia).
  rewrite E3; clear E3.
  unfold byte8 in *.
  set (b0 := at_ block (i * 4)) in *. set (b1 := at_ block (i * 4 + 1)) in *.
  set (b2 := at_ block (i * 4 + 2)) in *. set (b3 := at_ block (i * 4 + 3)) in *.
  clearbody b0 b1 b2 b3.
  change (2 ^ 8) with 256 in *; change (2 ^ 16) with 65536;
    change (2 ^ 24) with 16777216.
  assert (L1 : Z.lor (b0 * 16777216) (b1 * 65536) = (b0 * 256 + b1) * 2 ^ 16).
  { change 16777216 with (2 ^ 24); rewrite lor_shift_add; change (2 ^ 24) with 16777216;
      change (2 ^ 16) with 65536; lia. }
  rewrite L1.
  assert (L2 : Z.lor ((b0 * 256 + b1) * 2 ^ 16) (b2 * 256)
               = (b0 * 65536 + b1 * 256 + b2) * 2 ^ 8).
  { rewrite lor_shift_add; change (2 ^ 16) with 65536; change (2 ^ 8) with 256; lia. }
  rewrite L2, lor_shift_add; change (2 ^ 8) with 256; lia.
Qed.

(** X6: [compress] reads only [block[0..63]]: two blocks that agree on
    these 64 bytes give the same state. *)
Theorem compress_reads_one_block (st block block' : list Z) :
  (forall i, 0 <= i < 64 -> at_ block i = at_ block' i) ->
  compress st block = compress st block'.
Proof.
  intros E; unfold compress.
  assert (Hexp : expand_message block (repeat 0 52%nat)
                 = expand_message block' (repeat 0 52%nat)).
  { unfold expand_message; f_equal.
    apply fold_left_ext_in; intros W i Hi; apply in_zrange in Hi.
    unfold parse_step.
    rewrite (E (i * 4)), (E (i * 4 + 1)), (E (i * 4 + 2)), (E (i * 4 + 3)) by lia.
    reflexivity. }
  rewrite Hexp; reflexivity.
Qed.

Lemma Forall_at (P : Z -> Prop) (l : list Z) :
  (forall i, 0 <= i < Z.of_nat (length l) -> P (at_ l i)) -> Forall P l.
Proof.
  intros H; apply Forall_nth; intros i d Hi.
  rewrite (nth_indep l d 0 Hi).
  specialize (H (Z.of_nat i)); unfold at_ in H; rewrite Nat2Z.id in H.
  apply H; lia.
Qed.

Lemma compress_words (st block : list Z) :
  length st = 16%nat ->
  length (compress st block) = 16%nat /\ Forall word32 (compress st block).
Proof.
  intros Hst; rewrite compress_unfold.
  set (wk := spec_working 52 st (expand_message block (repeat 0 52%nat))).
  destruct (feed_loop_spec wk 16 st) as [Hl Hat]; [lia|].
  split; [now rewrite Hl|].
  apply Forall_at; intros i Hi; rewrite Hat by lia.
  destruct (Z.ltb_spec i (Z.of_nat 16)); [apply u32_range | lia].
Qed.

(** X7: from a 16-word state, whatever its words and the block,
    [compress] returns 16 words that all fit in 32 bits. *)
Theorem compress_keeps_word_state (st block : list Z) :
  length st = 16%nat ->
  length (compress st block) = 16%nat
  /\ (forall w, In w (compress st block) -> 0 <= w < 2 ^ 32).
Proof.
  intros Hst; destruct (compress_words st block Hst) as [Hl Hf].
  split; [exact Hl|]. now apply Forall_forall.
Qed.

(** ** Digests *)

Lemma Forall_upd (P : Z -> Prop) (i : nat) (v : Z) (l : list Z) :
  P v -> Forall P l -> Forall P (upd i v l).
Proof.
  intros Hv; revert i; induction l as [|x t IH]; intros i Hl; [destruct i; constructor|].
  inversion_clear Hl as [|? ? Hx Ht].
  destruct i as [|j]; cbn [upd]; constructor; auto.
Qed.

Lemma u8_range (x : Z) : byte8 (u8 x).
Proof. unfold byte8, u8; apply Z.mod_pos_bound; lia. Qed.

Lemma Forall_repeat_zero (P : Z -> Prop) (n : nat) : P 0 -> Forall P (repeat 0 n).
Proof. intros H0; induction n; cbn [repeat]; constructor; auto. Qed.

Lemma fold_left_Forall_inv (P : Z -> Prop) (f : list Z -> Z -> list Z) (l : list Z) :
  (forall W i, Forall P W -> Forall P (f W i)) ->
  forall W, Forall P W -> Forall P (fold_left f l W).
Proof.
  intros Hf; induction l as [|x t IH]; intros W HW; cbn [fold_left]; auto.
Qed.

Lemma finalize_hash_bytes (st : list Z) :
  length (finalize_hash st) = 32%nat /\ Forall byte8 (finalize_hash st).
Proof.
  split; [apply finalize_hash_length|].
  unfold finalize_hash; apply fold_left_Forall_inv.
  - intros W i HW; unfold digest_step.
    repeat apply Forall_upd; try apply u8_range; exact HW.
  - apply Forall_repeat_zero; unfold byte8; lia.
Qed.

(** X9: the digest of [nexthash256_final], of [nexthash256] and of
    [hmac_nexthash256] always has 32 bytes, each below 256. *)
Theorem digest_is_32_bytes (ctx ctx_key : nexthash256_ctx) (data key : list Z)
    (len keylen : Z) :
  let in_bytes d := length d = 32%nat /\ forall b, In b d -> 0 <= b < 256 in
  in_bytes (snd (nexthash256_final ctx))
  /\ in_bytes (nexthash256 ctx data len)
  /\ in_bytes (hmac_nexthash256 ctx ctx_key key keylen data len).
Proof.
  cbv zeta.
  assert (H : forall st, length (finalize_hash st) = 32%nat
                         /\ forall b, In b (finalize_hash st) -> 0 <= b < 256).
  { intros st; destruct (finalize_hash_bytes st) as [Hl Hb].
    split; [exact Hl | now apply Forall_forall]. }
  split; [apply H|]. split; [apply H|].
  unfold hmac_nexthash256.
  destruct (if 64 <? keylen then _ else _) as [k kl].
  destruct (fold_left _ _ _) as [ki ko].
  destruct (nexthash256_final _) as [c d]. apply H.
Qed.

(** ** Accounting of the streaming API *)

Lemma update_tail_account (ctx : nexthash256_ctx) (data : list Z) (len : Z) :
  0 <= len ->
  let q := Z.to_nat (len / 64) in
  let ctx' := update_tail ctx data len in
  state ctx' = compress_blocks q (state ctx) data
  /\ bitcount ctx' = bitcount ctx
  /\ buflen ctx' = (if 0 <? len mod 64 then len mod 64 else buflen ctx)
  /\ buffer ctx' = (if 0 <? len mod 64
                    then memcpy (buffer ctx) 0 (skipn (64 * q) data) (Z.to_nat (len mod 64))
                    else buffer ctx)
  /\ compress_calls ctx' = (q + compress_calls ctx)%nat.
Proof.
  intros Hlen q ctx'; unfold ctx', update_tail.
  rewrite (blocks_loop_spec q) by (unfold q; lia).
  replace (len - 64 * Z.of_nat q) with (len mod 64) by (unfold q; lia).
  destruct (Z.ltb_spec 0 (len mod 64)); unfold set_buflen, set_buffer;
    cbn [state bitcount buffer buflen compress_calls]; repeat split; reflexivity.
Qed.

(** X10: a call of [nexthash256_update] with [len] bytes on a context
    with [buflen < 64] leaves [buflen' = (buflen + len) mod 64], calls
    [compress] [(buflen + len) / 64] times and adds [8 len] to [bitcount]
    modulo [2^64]. *)
Theorem update_accounting (ctx : nexthash256_ctx) (data : list Z) (len : Z) :
  0 <= buflen ctx < 64 ->
  0 <= len ->
  let ctx' := nexthash256_update ctx data len in
  buflen ctx' = (buflen ctx + len) mod 64
  /\ Z.of_nat (compress_calls ctx')
     = Z.of_nat (compress_calls ctx) + (buflen ctx + len) / 64
  /\ bitcount ctx' = (bitcount ctx + 8 * len) mod 2 ^ 64.
Proof.
  intros Hbl Hlen ctx'; unfold ctx'.
  unfold nexthash256_update, call_compress, set_buflen, set_buffer, set_bitcount.
  cbn [state bitcount buffer buflen compress_calls].
  assert (Hneed : u64 (64 - buflen ctx) = 64 - buflen ctx) by wrap64.
  assert (Hbits : u64 (bitcount ctx + u64 (len * 8)) = (bitcount ctx + 8 * len) mod 2 ^ 64)
    by (unfold u64; change (2 ^ 64) with 18446744073709551616; lia).
  rewrite Hneed.
  destruct (Z.ltb_spec 0 (buflen ctx)) as [Hpos | Hzero].
  - destruct (Z.ltb_spec len (64 - buflen ctx)) as [Hsmall | Hbig].
    + cbn [buflen compress_calls bitcount]. repeat split; [wrap64 | lia | exact Hbits].
    + match goal with |- context [update_tail ?c ?d ?l] =>
        destruct (update_tail_account c d l) as (_ & Hbc & Hb & _ & Hc); [lia|];
        cbn [state bitcount buffer buflen compress_calls] in Hbc, Hb, Hc;
        rewrite Hbc, Hb, Hc end.
      repeat split; [|lia|exact Hbits].
      destruct (Z.ltb_spec 0 ((len - (64 - buflen ctx)) mod 64)); lia.
  - match goal with |- context [update_tail ?c ?d ?l] =>
      destruct (update_tail_account c d l) as (_ & Hbc & Hb & _ & Hc); [lia|];
      cbn [state bitcount buffer buflen compress_calls] in Hbc, Hb, Hc;
      rewrite Hbc, Hb, Hc end.
    repeat split; [|lia|exact Hbits].
    destruct (Z.ltb_spec 0 (len mod 64)); lia.
Qed.

(** X11: when the buffered bytes and the new ones do not fill a block,
    [nexthash256_update] does not touch [state] and calls no [compress]:
    it appends the new bytes to the buffered ones. *)
Theorem short_update_only_buffers (ctx : nexthash256_ctx) (data : list Z) (len : Z) :
  length (buffer ctx) = 64%nat ->
  0 <= buflen ctx ->
  0 <= len <= Z.of_nat (length data) ->
  buflen ctx + len < 64 ->
  let ctx' := nexthash256_update ctx data len in
  state ctx' = state ctx
  /\ compress_calls ctx' = compress_calls ctx
  /\ buflen ctx' = buflen ctx + len
  /\ length (buffer ctx') = 64%nat
  /\ firstn (Z.to_nat (buflen ctx + len)) (buffer ctx')
     = firstn (Z.to_nat (buflen ctx)) (buffer ctx) ++ firstn (Z.to_nat len) data.
Proof.
  intros Hbuf Hbl Hlen Hsum ctx'; unfold ctx'.
  unfold nexthash256_update, call_compress, set_buflen, set_buffer, set_bitcount.
  cbn [state bitcount buffer buflen compress_calls].
  assert (Hneed : u64 (64 - buflen ctx) = 64 - buflen ctx) by wrap64.
  rewrite Hneed.
  destruct (Z.ltb_spec 0 (buflen ctx)) as [Hpos | Hzero].
  - destruct (Z.ltb_spec len (64 - buflen ctx)) as [_ | Hbig]; [|lia].
    cbn [state bitcount buffer buflen compress_calls].
    assert (Hl1 : length (firstn (Z.to_nat (buflen ctx)) (buffer ctx)) = Z.to_nat (buflen ctx))
      by (rewrite length_firstn; lia).
    assert (Hl2 : length (firstn (Z.to_nat len) data) = Z.to_nat len)
      by (rewrite length_firstn; lia).
    repeat split; [wrap64 | |].
    + unfold memcpy; rewrite !length_app, Hl1, Hl2, length_skipn; lia.
    + unfold memcpy; rewrite app_assoc; apply firstn_app_exact.
      rewrite length_app; lia.
  - match goal with |- context [update_tail ?c ?d ?l] =>
      destruct (update_tail_account c d l) as (Hst & _ & Hb & Hbf & Hc); [lia|];
      cbn [state bitcount buffer buflen compress_calls] in Hst, Hb, Hbf, Hc;
      rewrite Hst, Hb, Hbf, Hc end.
    replace (Z.to_nat (len / 64)) with 0%nat by lia.
    replace (len mod 64) with len by lia.
    replace (buflen ctx) with 0 by lia.
    cbn [compress_blocks Nat.add Nat.mul skipn Z.to_nat firstn app Z.add].
    destruct (Z.ltb_spec 0 len) as [Hl | Hl].
    + assert (Hl2 : length (firstn (Z.to_nat len) data) = Z.to_nat len)
        by (rewrite length_firstn; lia).
      repeat split.
      * unfold memcpy; cbn [firstn app Nat.add].
        rewrite length_app, Hl2, length_skipn; lia.
      * unfold memcpy; cbn [firstn app Nat.add].
        apply firstn_app_exact; exact Hl2.
    + replace len with 0 by lia; repeat split; assumption.
Qed.

(** X12: with an empty buffer, an update of [k] whole blocks compresses
    them from the caller's memory; the buffer is left as it was. *)
Theorem aligned_update_bypasses_buffer (ctx : nexthash256_ctx) (data : list Z) (k : nat) :
  buflen ctx = 0 ->
  let ctx' := nexthash256_update ctx data (64 * Z.of_nat k) in
  buffer ctx' = buffer ctx
  /\ buflen ctx' = 0
  /\ state ctx' = compress_blocks k (state ctx) data
  /\ compress_calls ctx' = (k + compress_calls ctx)%nat.
Proof.
  intros Hbl ctx'; unfold ctx'.
  unfold nexthash256_update, call_compress, set_buflen, set_buffer, set_bitcount.
  cbn [state bitcount buffer buflen compress_calls]; rewrite Hbl.
  change (0 <? 0) with false; cbv iota.
  match goal with |- context [update_tail ?c ?d ?l] =>
    destruct (update_tail_account c d l) as (Hst & _ & Hb & Hbf & Hc); [lia|];
    cbn [state bitcount buffer buflen compress_calls] in Hst, Hb, Hbf, Hc;
    rewrite Hst, Hb, Hbf, Hc end.
  replace (Z.to_nat (64 * Z.of_nat k / 64)) with k by lia.
  replace (64 * Z.of_nat k mod 64) with 0 by lia.
  change (0 <? 0) with false; cbv iota. repeat split; assumption.
Qed.

(** X13: after [nexthash256_init] and updates, [state], [bitcount],
    [buflen] and the buffered bytes depend only on the concatenation [M]
    of the parts, not on how it was cut nor on what the context held
    before; the buffered bytes are the last [|M| mod 64] bytes of [M]. *)
Theorem context_depends_on_bytes_only (ctx ctx' : nexthash256_ctx)
    (parts parts' : list (list Z)) :
  concat parts = concat parts' ->
  let M := concat parts in
  let r := (length M mod 64)%nat in
  let c := absorb_all (nexthash256_init ctx) parts in
  let c' := absorb_all (nexthash256_init ctx') parts' in
  state c = state c'
  /\ bitcount c = bitcount c'
  /\ buflen c = buflen c'
  /\ buflen c = Z.of_nat r
  /\ firstn r (buffer c) = skipn (length M - r) M
  /\ firstn r (buffer c') = skipn (length M - r) M.
Proof.
  intros E M r c c'.
  pose proof (stream_absorbed ctx parts) as [Hs Hb Hl Hf _].
  pose proof (stream_absorbed ctx' parts') as [Hs' Hb' Hl' Hf' _].
  rewrite <- E in Hs', Hb', Hl', Hf'.
  fold M c in Hs, Hb, Hl, Hf. fold M c' in Hs', Hb', Hl', Hf'.
  replace (64 * (length M / 64))%nat with (length M - r)%nat in Hf, Hf'
    by (unfold r; lia).
  repeat split; try congruence; assumption.
Qed.

(** X15: [nexthash256] depends on the first [len] bytes at [data] only:
    neither the bytes that follow nor the prior content of its local
    context change the digest. *)
Theorem nexthash256_reads_len_bytes (ctx ctx' : nexthash256_ctx)
    (data data' : list Z) (len : Z) :
  0 <= len <= Z.of_nat (length data) ->
  len <= Z.of_nat (length data') ->
  firstn (Z.to_nat len) data = firstn (Z.to_nat len) data' ->
  nexthash256 ctx data len = nexthash256 ctx' data' len.
Proof.
  intros Hd Hd' E.
  rewrite !nexthash256_digest by lia. now rewrite E.
Qed.

(** ** Contexts stay within their C types *)

Lemma Forall_firstn_skipn (P : Z -> Prop) (n : nat) (l : list Z) :
  Forall P l -> Forall P (firstn n l) /\ Forall P (skipn n l).
Proof.
  intros H; rewrite <- (firstn_skipn n l) in H; now apply Forall_app in H.
Qed.

Lemma memcpy_bytes (dst src : list Z) (off n : nat) :
  length dst = 64%nat -> (off + n <= 64)%nat -> (n <= length src)%nat ->
  Forall byte8 dst -> Forall byte8 src ->
  length (memcpy dst off src n) = 64%nat /\ Forall byte8 (memcpy dst off src n).
Proof.
  intros Hd Hon Hn Fd Fs; unfold memcpy; split.
  - rewrite !length_app, !length_firstn, length_skipn; lia.
  - apply Forall_app; split; [apply (Forall_firstn_skipn byte8 _ _ Fd)|].
    apply Forall_app; split;
      [apply (Forall_firstn_skipn byte8 _ _ Fs) | apply (Forall_firstn_skipn byte8 _ _ Fd)].
Qed.

Lemma compress_blocks_words (n : nat) (st l : list Z) :
  length st = 16%nat -> Forall word32 st ->
  length (compress_blocks n st l) = 16%nat /\ Forall word32 (compress_blocks n st l).
Proof.
  revert st l; induction n as [|n IH]; intros st l Hl Hf; cbn [compress_blocks].
  - now split.
  - destruct (compress_words st l Hl) as [Hl' Hf']; now apply IH.
Qed.

Lemma update_tail_wf (ctx : nexthash256_ctx) (data : list Z) (len : Z) :
  wf_ctx ctx -> 0 <= len <= Z.of_nat (length data) -> Forall byte8 data ->
  wf_ctx (update_tail ctx data len).
Proof.
  intros (Hsl & Hsw & Hbc & Hbl & Hbufl & Hbufb) Hlen Hdata.
  destruct (update_tail_account ctx data len) as (Hst & Hb & Hl & Hbf & _); [lia|].
  destruct (compress_blocks_words (Z.to_nat (len / 64)) (state ctx) data Hsl Hsw)
    as [Hl16 Hw].
  unfold wf_ctx; rewrite Hst, Hb, Hl, Hbf.
  destruct (memcpy_bytes (buffer ctx) (skipn (64 * Z.to_nat (len / 64)) data)
              0 (Z.to_nat (len mod 64))) as [Hml Hmb];
    try assumption; try lia.
  { rewrite length_skipn; lia. }
  { apply (Forall_firstn_skipn byte8 _ _ Hdata). }
  destruct (Z.ltb_spec 0 (len mod 64)); repeat split; try assumption; lia.
Qed.

(** X14: the fields of a context stay within their C types: [wf_ctx] holds
    after [nexthash256_init] on a 64-byte buffer, is kept by
    [nexthash256_update] on [len] readable bytes, and holds after
    [nexthash256_final]. *)
Theorem wf_ctx_preserved :
  (forall ctx, length (buffer ctx) = 64%nat -> Forall byte8 (buffer ctx) ->
               wf_ctx (nexthash256_init ctx))
  /\ (forall ctx data len,
        wf_ctx ctx -> 0 <= len <= Z.of_nat (length data) -> Forall byte8 data ->
        wf_ctx (nexthash256_update ctx data len))
  /\ (forall ctx, wf_ctx (fst (nexthash256_final ctx))).
Proof.
  split; [|split].
  - intros ctx Hl Hb; unfold wf_ctx, nexthash256_init;
      cbn [state bitcount buffer buflen].
    repeat split; try assumption; try lia; try reflexivity.
    unfold H_INIT; repeat constructor; unfold word32; lia.
  - intros ctx data len Hwf Hlen Hdata.
    pose proof Hwf as (Hsl & Hsw & Hbc & Hbl & Hbufl & Hbufb).
    assert (Hcnt : 0 <= u64 (bitcount ctx + u64 (len * 8)) < 2 ^ 64)
      by (unfold u64; apply Z.mod_pos_bound; lia).
    unfold nexthash256_update, call_compress, set_buflen, set_buffer, set_bitcount.
    cbn [state bitcount buffer buflen compress_calls].
    assert (Hneed : u64 (64 - buflen ctx) = 64 - buflen ctx) by wrap64.
    rewrite Hneed.
    destruct (Z.ltb_spec 0 (buflen ctx)) as [Hpos | Hzero].
    + destruct (Z.ltb_spec len (64 - buflen ctx)) as [Hsmall | Hbig].
      * destruct (memcpy_bytes (buffer ctx) data (Z.to_nat (buflen ctx)) (Z.to_nat len))
          as [Hml Hmb]; try assumption; try lia.
        unfold wf_ctx; cbn [state bitcount buffer buflen].
        repeat split; try assumption; try lia; wrap64.
      * destruct (memcpy_bytes (buffer ctx) data (Z.to_nat (buflen ctx))
                    (Z.to_nat (64 - buflen ctx)))
          as [Hml Hmb]; try assumption; try lia.
        apply update_tail_wf.
        -- destruct (compress_words (state ctx)
                       (memcpy (buffer ctx) (Z.to_nat (buflen ctx)) data
                               (Z.to_nat (64 - buflen ctx))) Hsl) as [Hl16 Hw].
           unfold wf_ctx; cbn [state bitcount buffer buflen].
           repeat split; try assumption; lia.
        -- rewrite length_skipn; lia.
        -- apply (Forall_firstn_skipn byte8 _ _ Hdata).
    + apply update_tail_wf; [|exact Hlen|exact Hdata].
      unfold wf_ctx; cbn [state bitcount buffer buflen].
      repeat split; try assumption; lia.
  - intros ctx; unfold wf_ctx, nexthash256_final; cbn [fst state bitcount buffer buflen].
    repeat split; try reflexivity; try lia;
      apply Forall_repeat_zero; unfold word32, byte8; lia.
Qed.

(** ** Structure of the MAC *)

Lemma lxor_byte8 (a b : Z) : byte8 a -> byte8 b -> byte8 (Z.lxor a b).
Proof.
  intros Ha Hb; unfold byte8 in *.
  assert (E : Z.lxor a b = (Z.lxor a b) mod 2 ^ 8).
  { apply Z.bits_inj'; intros i Hi; rewrite Z.testbit_mod_pow2 by lia.
    destruct (Z.ltb_spec i 8); [reflexivity|].
    rewrite Z.lxor_spec.
    rewrite <- (Z.mod_small a (2 ^ 8)), <- (Z.mod_small b (2 ^ 8)) by assumption.
    now rewrite !Z.mod_pow2_bits_high by lia. }
  rewrite E; apply Z.mod_pos_bound; lia.
Qed.

Lemma firstn_succ_nth (n : nat) (l : list Z) :
  (n < length l)%nat -> firstn (S n) l = firstn n l ++ [nth n l 0].
Proof.
  revert l; induction n as [|n IH]; intros [|x t] Hn; cbn [length] in Hn; try lia.
  - reflexivity.
  - change (firstn (S (S n)) (x :: t)) with (x :: firstn (S n) t); rewrite IH by lia; reflexivity.
Qed.

Lemma key_loop_blocks (key : list Z) (ci co : Z) (n : nat) :
  (n <= 64)%nat -> (n <= length key)%nat ->
  fold_left (key_step key) (zrange 0 n) (repeat ci 64%nat, repeat co 64%nat)
  = (map (fun k => u8 (Z.lxor ci k)) (firstn n key) ++ repeat ci (64 - n),
     map (fun k => u8 (Z.lxor co k)) (firstn n key) ++ repeat co (64 - n)).
Proof.
  induction n as [|n IH]; intros Hn Hk; [reflexivity|].
  rewrite zrange_S, fold_left_app, IH by lia; cbn [fold_left Nat.add key_step].
  rewrite firstn_succ_nth by lia.
  replace (64 - n)%nat with (S (64 - S n)) by lia; cbn [repeat].
  rewrite !map_app; cbn [map].
  assert (Hlen : forall c, length (map (fun k => u8 (Z.lxor c k)) (firstn n key)) = n)
    by (intros; rewrite length_map, length_firstn; lia).
  unfold at_; rewrite !Nat2Z.id.
  rewrite !app_nth2 by (rewrite Hlen; lia).
  rewrite !Hlen, Nat.sub_diag; cbn [nth].
  rewrite !(upd_at_app _ _ n 0) by (rewrite Hlen; lia).
  cbn [upd]; rewrite <- !app_assoc; reflexivity.
Qed.

Lemma hmac_block_length (c : Z) (K : list Z) :
  (length K <= 64)%nat -> length (hmac_block c K) = 64%nat.
Proof.
  intros HK; unfold hmac_block; rewrite length_map, length_app, repeat_length; lia.
Qed.

Lemma spec_hmac_blocks (key : list Z) (keylen : Z) (data : list Z) :
  0 <= keylen <= 64 -> keylen <= Z.of_nat (length key) ->
  Forall byte8 (firstn (Z.to_nat keylen) key) ->
  spec_hmac key keylen data
  = nexthash256_spec
      (hmac_block 0x5C (firstn (Z.to_nat keylen) key)
       ++ nexthash256_spec (hmac_block 0x36 (firstn (Z.to_nat keylen) key) ++ data)).
Proof.
  intros Hk Hkey Hb; unfold spec_hmac.
  rewrite key_loop_blocks by lia.
  assert (Hblock : forall c, byte8 c ->
            map (fun k => u8 (Z.lxor c k)) (firstn (Z.to_nat keylen) key)
              ++ repeat c (64 - Z.to_nat keylen)
            = hmac_block c (firstn (Z.to_nat keylen) key)).
  { intros c Hc; unfold hmac_block.
    rewrite map_app, map_repeat, Z.lxor_0_r, length_firstn.
    replace (Nat.min (Z.to_nat keylen) (length key)) with (Z.to_nat keylen) by lia.
    f_equal; apply map_ext_in; intros k Hin.
    apply Z.mod_small, lxor_byte8; [exact Hc|].
    rewrite Forall_forall in Hb; now apply Hb. }
  rewrite !Hblock by (unfold byte8; lia); reflexivity.
Qed.

(** X17: for a key of at most 64 bytes, [hmac_nexthash256] is the digest
    of the key block XOR [0x5C] followed by the digest of the key block
    XOR [0x36] followed by the message, the key block being the key padded
    with zero bytes to 64; only [keylen] key bytes and [datalen] message
    bytes are read. *)
Theorem hmac_structure (ctx ctx_key c1 c2 : nexthash256_ctx)
    (key : list Z) (keylen : Z) (data : list Z) (datalen : Z) :
  0 <= keylen <= 64 -> keylen <= Z.of_nat (length key) ->
  Forall byte8 (firstn (Z.to_nat keylen) key) ->
  0 <= datalen <= Z.of_nat (length data) ->
  let K := firstn (Z.to_nat keylen) key in
  let M := firstn (Z.to_nat datalen) data in
  let inner := nexthash256 c1 (hmac_block 0x36 K ++ M) (64 + datalen) in
  hmac_nexthash256 ctx ctx_key key keylen data datalen
  = nexthash256 c2 (hmac_block 0x5C K ++ inner) (64 + 32).
Proof.
  intros Hk Hkey Hb Hd K M inner.
  assert (HK : (length K <= 64)%nat) by (unfold K; rewrite length_firstn; lia).
  assert (HM : length M = Z.to_nat datalen) by (unfold M; rewrite length_firstn; lia).
  rewrite hmac_short_key, spec_hmac_blocks by lia || assumption.
  fold K M.
  assert (Hinner : inner = nexthash256_spec (hmac_block 54 K ++ M)).
  { unfold inner; rewrite nexthash256_digest
      by (rewrite length_app, hmac_block_length by exact HK; lia).
    f_equal; apply firstn_all2; rewrite length_app, hmac_block_length by exact HK; lia. }
  rewrite nexthash256_digest
    by (rewrite length_app, hmac_block_length, Hinner, nexthash256_spec_length
          by exact HK; lia).
  rewrite Hinner; f_equal; symmetry; apply firstn_all2.
  rewrite length_app, hmac_block_length, nexthash256_spec_length by exact HK; lia.
Qed.

(** X18: a key shorter than 64 bytes and the same key followed by one
    zero byte give the same MAC. *)
Theorem hmac_key_zero_padding (ctx ctx_key ctx' ctx_key' : nexthash256_ctx)
    (K data : list Z) (datalen : Z) :
  (length K < 64)%nat ->
  Forall byte8 K ->
  0 <= datalen <= Z.of_nat (length data) ->
  hmac_nexthash256 ctx ctx_key K (Z.of_nat (length K)) data datalen
  = hmac_nexthash256 ctx' ctx_key' (K ++ [0]) (Z.of_nat (length K) + 1) data datalen.
Proof.
  intros HK Hb Hd.
  rewrite !hmac_short_key by lia.
  rewrite !spec_hmac_blocks.
  - rewrite Nat2Z.id, firstn_all.
    replace (Z.to_nat (Z.of_nat (length K) + 1)) with (length (K ++ [0]))
      by (rewrite length_app; cbn [length]; lia).
    rewrite firstn_all.
    assert (E : forall c, hmac_block c (K ++ [0]) = hmac_block c K).
    { intros c; unfold hmac_block; rewrite length_app, <- app_assoc; cbn [length app].
      replace (64 - length K)%nat with (S (64 - (length K + 1))) by lia; reflexivity. }
    now rewrite !E.
  - lia.
  - rewrite length_app; cbn [length]; lia.
  - replace (Z.to_nat (Z.of_nat (length K) + 1)) with (length (K ++ [0]))
      by (rewrite length_app; cbn [length]; lia).
    rewrite firstn_all; apply Forall_app; split; [exact Hb|].
    repeat constructor; unfold byte8; lia.
  - lia.
  - lia.
  - now rewrite Nat2Z.id, firstn_all.
Qed.


(** ** Test harness output *)





(** ** Rounds, schedule and finalization revisited *)

Lemma word32_nth (l : list Z) (k : nat) : Forall word32 l -> word32 (nth k l 0).
Proof.
  intros Hl; destruct (nth_in_or_default k l 0) as [Hin | ->].
  - rewrite Forall_forall in Hl; now apply Hl.
  - unfold word32; lia.
Qed.

(** X8: [nexthash_round] and [full_permutation] return 16 words, which
    fit in 32 bits when those of the state given do. *)
Theorem round_and_permutation_keep_words (st : list Z) (W_i K_i : Z) :
  Forall word32 st ->
  length (nexthash_round st W_i K_i) = 16%nat
  /\ Forall word32 (nexthash_round st W_i K_i)
  /\ length (full_permutation st) = 16%nat
  /\ Forall word32 (full_permutation st).
Proof.
  intros Hst; split; [reflexivity|]. split; [|split; [reflexivity|]].
  - unfold nexthash_round; cbv zeta.
    repeat (apply Forall_cons;
            [first [apply u32_range | apply word32_nth; exact Hst]|]).
    apply Forall_nil.
  - unfold full_permutation.
    repeat (apply Forall_cons; [apply word32_nth; exact Hst|]).
    apply Forall_nil.
Qed.

Lemma lor_word32 (a b : Z) : word32 a -> word32 b -> word32 (Z.lor a b).
Proof.
  intros Ha Hb; apply word32_of_bits.
  - apply Z.lor_nonneg; split; [apply Ha | apply Hb].
  - intros i Hi; rewrite Z.lor_spec, !word32_high_bits by assumption; reflexivity.
Qed.

(** X5: [expand_message] writes all 52 cells of [W]: the result does not
    depend on what the array held, and each word fits in 32 bits. *)
Theorem expand_message_fills_schedule (block W W' : list Z) :
  length W = 52%nat -> length W' = 52%nat ->
  expand_message block W = expand_message block W'
  /\ length (expand_message block W) = 52%nat
  /\ forall w, In w (expand_message block W) -> 0 <= w < 2 ^ 32.
Proof.
  intros HW HW'.
  assert (Hlen : length (expand_message block W) = 52%nat).
  { unfold expand_message.
    rewrite !fold_left_length_inv by (intros; apply upd_length); exact HW. }
  split; [now apply expand_message_overwrites|]. split; [exact Hlen|].
  apply Forall_forall, Forall_at; intros i Hi; rewrite Hlen in Hi.
  destruct (Z.ltb_spec i 16) as [Hlow | Hhigh].
  - unfold expand_message.
    rewrite schedule_fold_below by lia.
    rewrite (parse_fold_at block 16) by lia.
    repeat apply lor_word32; apply u32_range.
  - unfold expand_message.
    rewrite (schedule_fold_spec 36 16) by (try rewrite fold_left_length_inv
      by (intros; apply upd_length); lia).
    apply u32_range.
Qed.

(** X16: [nexthash256_final] reads the first [buflen] bytes of the buffer
    and no other: two contexts that agree on [state], [bitcount],
    [buflen] and those bytes give the same digest. *)
Theorem final_ignores_stale_buffer (ctx ctx' : nexthash256_ctx) :
  state ctx = state ctx' ->
  bitcount ctx = bitcount ctx' ->
  buflen ctx = buflen ctx' ->
  0 <= buflen ctx < 64 ->
  length (buffer ctx) = 64%nat -> length (buffer ctx') = 64%nat ->
  firstn (Z.to_nat (buflen ctx)) (buffer ctx)
  = firstn (Z.to_nat (buflen ctx)) (buffer ctx') ->
  snd (nexthash256_final ctx) = snd (nexthash256_final ctx').
Proof.
  intros Hs Hbc Hbl Hr Hl Hl' Hpre.
  unfold nexthash256_final; cbn [snd]; f_equal.
  assert (Hpad : final_pad (repeat 0 128%nat) ctx = final_pad (repeat 0 128%nat) ctx')
    by (unfold final_pad, final_padlen; now rewrite Hbc, Hbl).
  assert (Hplen : final_padlen ctx = final_padlen ctx')
    by (unfold final_padlen; now rewrite Hbl).
  unfold final_absorb; rewrite <- Hpad, <- Hplen.
  set (pad := final_pad (repeat 0 128%nat) ctx); clearbody pad; clear Hpad.
  destruct (final_padlen_range ctx Hr) as [Hp Hsum].
  assert (Hu : u64 (final_padlen ctx + 8) = final_padlen ctx + 8) by wrap64.
  rewrite Hu.
  unfold nexthash256_update, call_compress, set_buflen, set_buffer, set_bitcount.
  cbn [state bitcount buffer buflen compress_calls].
  rewrite <- Hbl, <- Hs.
  assert (Hneed : u64 (64 - buflen ctx) = 64 - buflen ctx) by wrap64.
  rewrite Hneed.
  destruct (Z.ltb_spec 0 (buflen ctx)) as [Hpos | Hzero].
  - destruct (Z.ltb_spec (final_padlen ctx + 8) (64 - buflen ctx)) as [Hsmall | Hbig].
    + lia.
    + repeat match goal with |- context [update_tail ?c ?d ?l] =>
        let H := fresh "Hst" in
        destruct (update_tail_account c d l) as (H & _); [lia|];
        cbn [state bitcount buffer buflen compress_calls] in H; rewrite H; clear H end.
      match goal with
      | |- compress_blocks ?q (compress ?s ?a) ?d = compress_blocks ?q (compress ?s ?b) ?d =>
          rewrite (compress_prefix s a b); [reflexivity|]
      end.
      unfold memcpy.
      assert (Hfl : length (firstn (Z.to_nat (buflen ctx)) (buffer ctx))
                    = Z.to_nat (buflen ctx)) by (rewrite length_firstn; lia).
      assert (Hfl' : length (firstn (Z.to_nat (buflen ctx)) (buffer ctx'))
                     = Z.to_nat (buflen ctx)) by (rewrite length_firstn; lia).
      replace (Z.to_nat (buflen ctx) + Z.to_nat (64 - buflen ctx))%nat with 64%nat by lia.
      rewrite !(skipn_all2 (n := 64)) by lia.
      now rewrite Hpre.
  - repeat match goal with |- context [update_tail ?c ?d ?l] =>
      let H := fresh "Hst" in
      destruct (update_tail_account c d l) as (H & _); [lia|];
      cbn [state bitcount buffer buflen compress_calls] in H; rewrite H; clear H end.
    reflexivity.
Qed.

(** ** Concrete runs of the further properties *)

Ltac in_range := vm_compute; split; [discriminate | reflexivity].

Lemma rotations_inverse_witness :
  rotl (rotr 0x80000001 7) 7 = 0x80000001.
Proof.
  apply (rotations_inverse 0x80000001 7); [in_range | lia].
Defined.

Lemma Ch_Maj_bitwise_witness :
  Z.testbit (Ch 0xF0F0F0F0 0xAAAAAAAA 0x55555555) 5
  = (if Z.testbit 0xF0F0F0F0 5 then Z.testbit 0xAAAAAAAA 5 else Z.testbit 0x55555555 5).
Proof.
  apply (Ch_Maj_bitwise 0xF0F0F0F0 0xAAAAAAAA 0x55555555 5); lia.
Defined.

Lemma widening_mul_fold_witness :
  widening_mul 0xFFFFFFFF 0xFFFFFFFF
  = Z.lxor ((0xFFFFFFFF * 0xFFFFFFFF) / 2 ^ 32) ((0xFFFFFFFF * 0xFFFFFFFF) mod 2 ^ 32).
Proof.
  apply (widening_mul_fold 0xFFFFFFFF 0xFFFFFFFF); in_range.
Defined.

Lemma parse_big_endian_witness :
  at_ (expand_message ([0; 1; 2; 3] ++ repeat 0 60%nat) (repeat 0 52%nat)) 0
  = at_ ([0; 1; 2; 3] ++ repeat 0 60%nat) (0 * 4) * 2 ^ 24
    + at_ ([0; 1; 2; 3] ++ repeat 0 60%nat) (0 * 4 + 1) * 2 ^ 16
    + at_ ([0; 1; 2; 3] ++ repeat 0 60%nat) (0 * 4 + 2) * 2 ^ 8
    + at_ ([0; 1; 2; 3] ++ repeat 0 60%nat) (0 * 4 + 3).
Proof.
  apply (parse_big_endian ([0; 1; 2; 3] ++ repeat 0 60%nat) (repeat 0 52%nat) 0);
    [reflexivity | lia | in_range | in_range | in_range | in_range].
Defined.

Lemma expand_message_fills_schedule_witness :
  expand_message (repeat 7 64%nat) (repeat 0 52%nat)
  = expand_message (repeat 7 64%nat) (repeat 9 52%nat).
Proof.
  apply (expand_message_fills_schedule (repeat 7 64%nat) (repeat 0 52%nat) (repeat 9 52%nat));
    reflexivity.
Defined.

Lemma compress_reads_one_block_witness :
  compress H_INIT (repeat 1 64%nat) = compress H_INIT (repeat 1 64%nat ++ [2; 3]).
Proof.
  apply (compress_reads_one_block H_INIT (repeat 1 64%nat) (repeat 1 64%nat ++ [2; 3])).
  intros i Hi; apply (at_firstn_eq 64); [reflexivity | lia].
Defined.

Lemma compress_keeps_word_state_witness :
  length (compress H_INIT (repeat 255 64%nat)) = 16%nat.
Proof.
  apply (compress_keeps_word_state H_INIT (repeat 255 64%nat)); reflexivity.
Defined.

Lemma round_and_permutation_keep_words_witness :
  Forall word32 (nexthash_round (repeat 0 16%nat) 1 2).
Proof.
  apply (round_and_permutation_keep_words (repeat 0 16%nat) 1 2).
  apply Forall_repeat_zero; in_range.
Defined.

Lemma update_accounting_witness :
  buflen (nexthash256_update (mk_ctx H_INIT 24 (repeat 97 64%nat) 3 0) (repeat 98 100%nat) 100)
  = (buflen (mk_ctx H_INIT 24 (repeat 97 64%nat) 3 0) + 100) mod 64.
Proof.
  pose proof (update_accounting (mk_ctx H_INIT 24 (repeat 97 64%nat) 3 0)
                (repeat 98 100%nat) 100) as P.
  cbv zeta in P; apply P; simpl; lia.
Defined.

Lemma short_update_only_buffers_witness :
  state (nexthash256_update (mk_ctx H_INIT 24 (repeat 97 64%nat) 3 0) [1; 2; 3; 4] 4)
  = state (mk_ctx H_INIT 24 (repeat 97 64%nat) 3 0).
Proof.
  pose proof (short_update_only_buffers (mk_ctx H_INIT 24 (repeat 97 64%nat) 3 0)
                [1; 2; 3; 4] 4) as P.
  cbv zeta in P; apply P; simpl; try reflexivity; lia.
Defined.

Lemma aligned_update_bypasses_buffer_witness :
  buffer (nexthash256_update (mk_ctx H_INIT 0 (repeat 97 64%nat) 0 0)
                             (repeat 98 128%nat) (64 * Z.of_nat 2))
  = buffer (mk_ctx H_INIT 0 (repeat 97 64%nat) 0 0).
Proof.
  pose proof (aligned_update_bypasses_buffer (mk_ctx H_INIT 0 (repeat 97 64%nat) 0 0)
                (repeat 98 128%nat) 2) as P.
  cbv zeta in P; apply P; reflexivity.
Defined.

Lemma context_depends_on_bytes_only_witness :
  state (absorb_all (nexthash256_init zero_ctx) [[1; 2]; [3]])
  = state (absorb_all (nexthash256_init (mk_ctx [] 5 (repeat 9 64%nat) 7 0)) [[1]; [2; 3]]).
Proof.
  pose proof (context_depends_on_bytes_only zero_ctx (mk_ctx [] 5 (repeat 9 64%nat) 7 0)
                [[1; 2]; [3]] [[1]; [2; 3]]) as P.
  cbv zeta in P; apply P; reflexivity.
Defined.

Lemma wf_ctx_preserved_witness :
  wf_ctx (nexthash256_update (nexthash256_init zero_ctx) [1; 2; 3] 3).
Proof.
  destruct wf_ctx_preserved as (Hinit & Hupd & _).
  apply Hupd.
  - apply Hinit; [reflexivity | apply Forall_repeat_zero; in_range].
  - simpl; lia.
  - repeat (apply Forall_cons; [in_range|]); apply Forall_nil.
Defined.

Lemma nexthash256_reads_len_bytes_witness :
  nexthash256 zero_ctx [1; 2; 3; 4] 3
  = nexthash256 (mk_ctx [] 5 (repeat 9 64%nat) 7 0) [1; 2; 3; 9; 9] 3.
Proof.
  apply (nexthash256_reads_len_bytes zero_ctx (mk_ctx [] 5 (repeat 9 64%nat) 7 0)
           [1; 2; 3; 4] [1; 2; 3; 9; 9] 3);
    [simpl; lia | simpl; lia | reflexivity].
Defined.

Lemma final_ignores_stale_buffer_witness :
  snd (nexthash256_final (mk_ctx H_INIT 16 ([1; 2] ++ repeat 0 62%nat) 2 0))
  = snd (nexthash256_final (mk_ctx H_INIT 16 ([1; 2] ++ repeat 7 62%nat) 2 0)).
Proof.
  apply (final_ignores_stale_buffer
           (mk_ctx H_INIT 16 ([1; 2] ++ repeat 0 62%nat) 2 0)
           (mk_ctx H_INIT 16 ([1; 2] ++ repeat 7 62%nat) 2 0));
    try reflexivity; simpl; lia.
Defined.

Lemma hmac_structure_witness :
  hmac_nexthash256 zero_ctx zero_ctx [107; 101; 121] 3 [109; 115; 103] 3
  = nexthash256 zero_ctx
      (hmac_block 0x5C (firstn (Z.to_nat 3) [107; 101; 121])
       ++ nexthash256 zero_ctx
            (hmac_block 0x36 (firstn (Z.to_nat 3) [107; 101; 121])
             ++ firstn (Z.to_nat 3) [109; 115; 103])
            (64 + 3))
      (64 + 32).
Proof.
  pose proof (hmac_structure zero_ctx zero_ctx zero_ctx zero_ctx
                [107; 101; 121] 3 [109; 115; 103] 3) as P.
  cbv zeta in P; apply P.
  - lia.
  - simpl; lia.
  - repeat (apply Forall_cons; [in_range|]); apply Forall_nil.
  - simpl; lia.
Defined.

Lemma hmac_key_zero_padding_witness :
  hmac_nexthash256 zero_ctx zero_ctx [107; 101; 121] (Z.of_nat (length [107; 101; 121]))
                   [109; 115; 103] 3
  = hmac_nexthash256 zero_ctx zero_ctx ([107; 101; 121] ++ [0])
                     (Z.of_nat (length [107; 101; 121]) + 1) [109; 115; 103] 3.
Proof.
  apply (hmac_key_zero_padding zero_ctx zero_ctx zero_ctx zero_ctx
           [107; 101; 121] [109; 115; 103] 3).
  - simpl; lia.
  - repeat (apply Forall_cons; [in_range|]); apply Forall_nil.
  - simpl; lia.
Defined.


Example print_hex_output :
  print_hex [] [0; 171; 255] 3 = ["0"; "0"; "a"; "b"; "f"; "f"; "010"]%char.
Proof. vm_compute; reflexivity. Qed.
